(** * Graph path finder: shortest and second-shortest paths

    A shallow embedding of the path-finding core of [app.py]:
    [dijkstra] (a uniform-cost search over a [heapq] frontier with lazy
    deletion) and [find_second_shortest_path] (one [dijkstra] run per edge
    of the primary path, each on a copy of the graph with that edge
    deleted in both directions).

    Modelling choices.
    - A Python [dict] iterates in insertion order, so a dict is an
      association list of its items in that order; [dict_get] returns the
      first binding of a key.  The lists that stand for real dicts have
      pairwise distinct keys ([dict_wf]), for which being an item and being
      the binding of a key coincide ([dict_wf_get]); the theorems do not
      need this and are stated for all lists.
    - Edge weights and accumulated costs are integers ([Z]); the value
      [float('inf')] of the unreachable result is the constructor
      [Infinity] of [cost].
    - [heapq] is the Python standard library; it is modelled by its
      contract: [heappop] removes and returns the least item of the heap.
      Items are tuples [(cost, node, path)], compared as Python compares
      tuples: lexicographically, integers by value, strings by code
      point, lists lexicographically.  That order is a strict total order
      that identifies equal items only ([entry_compare_eq],
      [entry_compare_trans]), and no item of the heap is less than the one
      popped ([heappop_least_item]), so the item popped is determined by
      the contents of the heap.
    - [while heap:] is iterated with fuel; [dijkstra] runs the loop with
      [fuel_bound g] steps, which is proved sufficient
      ([dijkstra_fuel_enough]).
    - [dijkstra] only reads its graph argument, so it is a function of the
      graph's contents.  [find_second_shortest_path] copies and mutates
      dict objects, so it threads a store of adjacency dicts, and a graph
      object maps each node to the location of its adjacency dict.
    - The handler [get_paths] is modelled up to the arguments it passes
      to the response models: [str.upper] is a parameter of the model,
      [HTTPException] is a result, and the costs are the numbers before
      the model turns them into floats. *)

From Stdlib Require Import ZArith String Ascii Bool Lia Arith PeanoNat List Permutation.
From Stdlib Require OrderedTypeEx.
Import ListNotations.
Open Scope string_scope.
Open Scope list_scope.

(** ** Data model *)

(** Node identifiers are strings. *)
Abbreviation node := string (only parsing).

(** Contents of an adjacency dict: neighbour -> weight. *)
Abbreviation adjacency := (list (node * Z)) (only parsing).

(** Contents of a graph: node -> adjacency dict. *)
Abbreviation wgraph := (list (node * adjacency)) (only parsing).

Inductive cost : Type :=
| Finite (c : Z)
| Infinity.

(** The pair [(cost, path)] that both functions return. *)
Definition result := (cost * list node)%type.

Definition unreachable : result := (Infinity, []).

(** Frontier item [(cost, node, path)]. *)
Definition entry := (Z * node * list node)%type.

Definition entry_cost (e : entry) : Z := fst (fst e).
Definition entry_node (e : entry) : node := snd (fst e).
Definition entry_path (e : entry) : list node := snd e.

(** ** Dicts as association lists *)

Section Dict.
Context {V : Type}.

(** [d.get(k)]: the binding of [k], if any. *)
Fixpoint dict_get (d : list (string * V)) (k : string) : option V :=
  match d with
  | [] => None
  | (k', v) :: rest => if String.eqb k k' then Some v else dict_get rest k
  end.

(** [k in d]. *)
Definition dict_mem (k : string) (d : list (string * V)) : bool :=
  match dict_get d k with Some _ => true | None => false end.

(** [del d[k]]. *)
Definition dict_del (k : string) (d : list (string * V)) : list (string * V) :=
  filter (fun kv => negb (String.eqb k (fst kv))) d.

(** [d[k] = v] for a key that is already bound. *)
Fixpoint dict_set (d : list (string * V)) (k : string) (v : V) : list (string * V) :=
  match d with
  | [] => []
  | (k', v') :: rest =>
      if String.eqb k k' then (k', v) :: rest else (k', v') :: dict_set rest k v
  end.

(** Keys are pairwise distinct, as in every Python dict. *)
Definition dict_wf (d : list (string * V)) : Prop := NoDup (map fst d).
End Dict.

(** [x in s] for the [visited] set. *)
Definition set_mem (x : node) (s : list node) : bool := existsb (String.eqb x) s.

(** [p == q] on lists of strings. *)
Fixpoint path_eqb (p q : list node) : bool :=
  match p, q with
  | [], [] => true
  | x :: p', y :: q' => String.eqb x y && path_eqb p' q'
  | _, _ => false
  end.

(** ** The frontier: [heapq] on tuples *)

(** Python's [<] on lists of strings. *)
Fixpoint path_compare (p q : list node) : comparison :=
  match p, q with
  | [], [] => Eq
  | [], _ :: _ => Lt
  | _ :: _, [] => Gt
  | x :: p', y :: q' =>
      match String.compare x y with
      | Eq => path_compare p' q'
      | c => c
      end
  end.

(** Python's order on the tuples [(cost, node, path)]. *)
Definition entry_compare (a b : entry) : comparison :=
  match Z.compare (entry_cost a) (entry_cost b) with
  | Eq =>
      match String.compare (entry_node a) (entry_node b) with
      | Eq => path_compare (entry_path a) (entry_path b)
      | c => c
      end
  | c => c
  end.

Definition entry_ltb (a b : entry) : bool :=
  match entry_compare a b with Lt => true | _ => false end.

(** [extract_min m h]: the least item of [m :: h] and the other items. *)
Fixpoint extract_min (m : entry) (h : list entry) : entry * list entry :=
  match h with
  | [] => (m, [])
  | x :: t =>
      if entry_ltb x m
      then let '(least, others) := extract_min x t in (least, m :: others)
      else let '(least, others) := extract_min m t in (least, x :: others)
  end.

(** [heapq.heappop(heap)]; [None] stands for the empty heap, which the
    loop condition [while heap:] excludes before the pop. *)
Definition heappop (heap : list entry) : option (entry * list entry) :=
  match heap with
  | [] => None
  | x :: t => Some (extract_min x t)
  end.

(** [heapq.heappush(heap, item)]. *)
Definition heappush (heap : list entry) (item : entry) : list entry :=
  heap ++ [item].

(** ** [dijkstra] *)

(** The [for neighbor, weight in graph_copy[node].items()] loop. *)
Fixpoint push_neighbors (visited : list node) (cost : Z) (path : list node)
    (items : adjacency) (heap : list entry) : list entry :=
  match items with
  | [] => heap
  | (neighbor, weight) :: rest =>
      if set_mem neighbor visited
      then push_neighbors visited cost path rest heap
      else
        let new_cost := (cost + weight)%Z in
        let new_path := path ++ [neighbor] in
        push_neighbors visited cost path rest
          (heappush heap (new_cost, neighbor, new_path))
  end.

(** The loop state: the heap and the visited set. *)
Definition state := (list entry * list node)%type.

Inductive outcome : Type :=
| Return (r : result)
| Next (st : state).

(** One evaluation of the loop condition and, when it holds, of the body. *)
Definition loop_body (graph_copy : wgraph) (end_ : node) (st : state) : outcome :=
  let '(heap, visited) := st in
  match heappop heap with
  | None => Return (Infinity, [])
  | Some ((cost, node, path), heap) =>
      if String.eqb node end_ then Return (Finite cost, path)
      else if set_mem node visited then Next (heap, visited)
      else
        let visited := node :: visited in
        match dict_get graph_copy node with
        | Some items => Next (push_neighbors visited cost path items heap, visited)
        | None => Next (heap, visited)
        end
  end.

Fixpoint dijkstra_loop (fuel : nat) (graph_copy : wgraph) (end_ : node)
    (st : state) : option result :=
  match fuel with
  | O => None
  | S fuel =>
      match loop_body graph_copy end_ st with
      | Return r => Some r
      | Next st' => dijkstra_loop fuel graph_copy end_ st'
      end
  end.

Definition init_state (start : node) : state := ([(0%Z, start, [start])], []).

(** [dijkstra] with an explicit number of loop iterations; [None] when the
    loop has not returned within them. *)
Definition dijkstra_fuel (fuel : nat) (graph_copy : wgraph) (start end_ : node)
  : option result :=
  dijkstra_loop fuel graph_copy end_ (init_state start).

(** Number of items over all adjacency dicts. *)
Definition total_items (g : wgraph) : nat :=
  list_sum (map (fun kv => length (snd kv)) g).

Definition fuel_bound (g : wgraph) : nat := 2 + total_items g.

Definition dijkstra (graph_copy : wgraph) (start end_ : node) : result :=
  match dijkstra_fuel (fuel_bound graph_copy) graph_copy start end_ with
  | Some r => r
  | None => unreachable
  end.

(** ** The store of dict objects *)

(** Locations of dict objects. *)
Abbreviation loc := nat (only parsing).

(** The adjacency dicts that exist, by location. *)
Abbreviation store := (list adjacency) (only parsing).

(** A graph object: node -> location of its adjacency dict. *)
Abbreviation gref := (list (node * loc)) (only parsing).

Definition read (s : store) (l : loc) : adjacency := nth l s [].

Fixpoint write (s : store) (l : loc) (d : adjacency) : store :=
  match s, l with
  | [], _ => []
  | _ :: rest, O => d :: rest
  | x :: rest, S l' => x :: write rest l' d
  end.

(** The contents of a graph object in a store. *)
Definition snapshot (s : store) (g : gref) : wgraph :=
  map (fun kl => (fst kl, read s (snd kl))) g.

(** [{node: neighbors.copy() for node, neighbors in graph.items()}]:
    every adjacency dict is copied into a new object. *)
Fixpoint copy_graph (s : store) (items : gref) : store * gref :=
  match items with
  | [] => (s, [])
  | (node, neighbors) :: rest =>
      let fresh := length s in
      let '(s', copied) := copy_graph (s ++ [read s neighbors]) rest in
      (s', (node, fresh) :: copied)
  end.

(** [if u in graph_copy and v in graph_copy[u]: del graph_copy[u][v]]. *)
Definition del_edge (s : store) (graph_copy : gref) (u v : node) : store :=
  match dict_get graph_copy u with
  | Some l =>
      if dict_mem v (read s l) then write s l (dict_del v (read s l)) else s
  | None => s
  end.

(** ** [find_second_shortest_path] *)

(** [a < b] on costs, [float('inf')] included. *)
Definition cost_ltb (a b : cost) : bool :=
  match a, b with
  | Finite x, Finite y => Z.ltb x y
  | Finite _, Infinity => true
  | Infinity, _ => false
  end.

(** State of the [for] loop: the store, [second_best_cost] and
    [second_best_path]. *)
Definition second_state := (store * cost * list node)%type.

(** Body of [for i in range(len(shortest_path) - 1)]. *)
Definition second_body (graph : gref) (start end_ : node)
    (shortest_path : list node) (st : second_state) (i : nat) : second_state :=
  let '(s, second_best_cost, second_best_path) := st in
  let u := nth i shortest_path "" in
  let v := nth (i + 1) shortest_path "" in
  let '(s, graph_copy) := copy_graph s graph in
  let s := del_edge s graph_copy u v in
  let s := del_edge s graph_copy v u in
  let '(cost, path) := dijkstra (snapshot s graph_copy) start end_ in
  if cost_ltb cost second_best_cost && negb (path_eqb path shortest_path)
  then (s, cost, path)
  else (s, second_best_cost, second_best_path).

(** The module-level [graph] is read through the store [s] and the graph
    object [graph]; the final store is returned with the result. *)
Definition find_second_shortest_path (s : store) (graph : gref)
    (start end_ : node) : result * store :=
  let '(shortest_cost, shortest_path) := dijkstra (snapshot s graph) start end_ in
  match shortest_path with
  | [] => ((Infinity, []), s)
  | _ :: _ =>
      let '(s', second_best_cost, second_best_path) :=
        fold_left (second_body graph start end_ shortest_path)
          (seq 0 (length shortest_path - 1)) (s, Infinity, []) in
      ((second_best_cost, second_best_path), s')
  end.

(** The loop body with [fuel] iterations for its [dijkstra] call. *)
Definition second_body_fuel (fuel : nat) (graph : gref) (start end_ : node)
    (shortest_path : list node) (st : option second_state) (i : nat)
  : option second_state :=
  match st with
  | None => None
  | Some (s, second_best_cost, second_best_path) =>
      let u := nth i shortest_path "" in
      let v := nth (i + 1) shortest_path "" in
      let '(s, graph_copy) := copy_graph s graph in
      let s := del_edge s graph_copy u v in
      let s := del_edge s graph_copy v u in
      match dijkstra_fuel fuel (snapshot s graph_copy) start end_ with
      | None => None
      | Some (cost, path) =>
          if cost_ltb cost second_best_cost
             && negb (path_eqb path shortest_path)
          then Some (s, cost, path)
          else Some (s, second_best_cost, second_best_path)
      end
  end.

(** [find_second_shortest_path] with [fuel] loop iterations for each of
    its [dijkstra] calls; [None] when one of them has not returned. *)
Definition find_second_shortest_path_fuel (fuel : nat) (s : store)
    (graph : gref) (start end_ : node) : option (result * store) :=
  match dijkstra_fuel fuel (snapshot s graph) start end_ with
  | None => None
  | Some (shortest_cost, shortest_path) =>
      match shortest_path with
      | [] => Some ((Infinity, []), s)
      | _ :: _ =>
          match fold_left (second_body_fuel fuel graph start end_ shortest_path)
                  (seq 0 (length shortest_path - 1)) (Some (s, Infinity, []))
          with
          | None => None
          | Some (s', second_best_cost, second_best_path) =>
              Some ((second_best_cost, second_best_path), s')
          end
      end
  end.

(** ** The module's graph *)

(** The adjacency dicts of the literal [graph = {...}], in the order in
    which it lists them. *)
Definition graph_store : store :=
  [ [("B", 1); ("C", 4); ("E", 2)];
    [("A", 1); ("C", 2); ("D", 5)];
    [("A", 4); ("B", 2); ("D", 1); ("F", 3)];
    [("B", 5); ("C", 1); ("F", 2); ("G", 1)];
    [("A", 2); ("F", 2); ("H", 4)];
    [("C", 3); ("D", 2); ("E", 2); ("I", 3)];
    [("D", 1); ("J", 5)];
    [("E", 4); ("I", 1)];
    [("F", 3); ("H", 1); ("J", 2)];
    [("G", 5); ("I", 2)] ]%Z.

(** The dict object bound to the module-level name [graph]. *)
Definition graph_ref : gref :=
  [("A", 0); ("B", 1); ("C", 2); ("D", 3); ("E", 4);
   ("F", 5); ("G", 6); ("H", 7); ("I", 8); ("J", 9)].

(** The contents of the module's graph. *)
Definition graph : wgraph := snapshot graph_store graph_ref.

(** ** The [/get_paths] endpoint *)

(** [PathRequest], with its fields [start] and [end]. *)
Record PathRequest : Type := { req_start : string; req_end : string }.

(** [PathResponse], with its fields [cost] and [path]; the cost is the
    number the handler passes to the model. *)
Record PathResponse : Type := { pr_cost : Z; pr_path : list node }.

(** [PathsResponse]. *)
Record PathsResponse : Type :=
  { shortest : PathResponse; second : PathResponse }.

(** What the handler does: it returns a body or raises
    [HTTPException(status_code, detail)]. *)
Inductive reply : Type :=
| Respond (body : PathsResponse)
| HTTPException (status_code : nat) (detail : string).

(** [cost if cost != float('inf') else -1]. *)
Definition sentinel (c : cost) : Z :=
  match c with
  | Finite z => z
  | Infinity => (-1)%Z
  end.

(** The handler of [POST /get_paths].  [upper] stands for Python's
    [str.upper]; the module-level [graph] is read through the store [s]
    and the graph object [graph]. *)
Definition get_paths (upper : string -> string) (s : store) (graph : gref)
    (request : PathRequest) : reply * store :=
  let start := upper (req_start request) in
  let end_ := upper (req_end request) in
  if negb (dict_mem start graph)
  then (HTTPException 400
          (String.append "Start node '"
             (String.append start "' not found in graph")), s)
  else if negb (dict_mem end_ graph)
  then (HTTPException 400
          (String.append "End node '"
             (String.append end_ "' not found in graph")), s)
  else
    let '(shortest_cost, shortest_path) :=
      dijkstra (snapshot s graph) start end_ in
    let '((second_cost, second_path), s') :=
      find_second_shortest_path s graph start end_ in
    (Respond
       {| shortest := {| pr_cost := sentinel shortest_cost;
                         pr_path := shortest_path |};
          second := {| pr_cost := sentinel second_cost;
                       pr_path := second_path |} |}, s').

(** [str.upper] on ASCII strings. *)
Definition upper_char (c : ascii) : ascii :=
  let n := nat_of_ascii c in
  if Nat.leb 97 n && Nat.leb n 122 then ascii_of_nat (n - 32) else c.

Fixpoint ascii_upper (x : string) : string :=
  match x with
  | EmptyString => EmptyString
  | String c rest => String (upper_char c) (ascii_upper rest)
  end.

(** ** Two small graphs for the examples *)

(** A small graph with two components, [A - B] and [C - D]. *)
Definition two_islands : wgraph :=
  [ ("A", [("B", 1%Z)]); ("B", [("A", 1%Z)]);
    ("C", [("D", 1%Z)]); ("D", [("C", 1%Z)]) ].

(** A store and graph object with the single edge [A - B]. *)
Definition bridge_store : store := [ [("B", 1%Z)]; [("A", 1%Z)] ].

Definition bridge_ref : gref := [("A", 0); ("B", 1)].

(** Two graphs with the same edges, listed in different orders. *)
Definition triangle : wgraph :=
  [ ("A", [("B", 1%Z); ("C", 5%Z)]); ("B", [("C", 1%Z)]) ].

Definition triangle_reordered : wgraph :=
  [ ("B", [("C", 1%Z)]); ("A", [("C", 5%Z); ("B", 1%Z)]) ].

(** ** Paths of a graph *)

(** [(v, w)] is an item of [g[u]]: the edge the search follows from [u]. *)
Definition edge (g : wgraph) (u v : node) (w : Z) : Prop :=
  exists items, dict_get g u = Some items /\ In (v, w) items.

(** [walk g s p t c]: the node sequence [p] leads from [s] to [t] along
    edges of [g] whose weights sum to [c]. *)
Inductive walk (g : wgraph) (s : node) : list node -> node -> Z -> Prop :=
| walk_start : walk g s [s] s 0%Z
| walk_step p u c v w :
    walk g s p u c -> edge g u v w -> walk g s (p ++ [v]) v (c + w)%Z.

(** Sum of a list of weights. *)
Definition sum_weights (ws : list Z) : Z := fold_right Z.add 0%Z ws.

(** No weight of the graph is negative. *)
Definition nonneg_weights (g : wgraph) : bool :=
  forallb (fun kv => forallb (fun nw => (0 <=? snd nw)%Z) (snd kv)) g.

(** The property of the weights the search relies on. *)
Definition weights_nonneg (g : wgraph) : Prop :=
  forall u v w, edge g u v w -> (0 <= w)%Z.

(** [n] is a neighbour in some adjacency dict of the graph. *)
Definition listed (g : wgraph) (n : node) : bool :=
  existsb (fun kv => dict_mem n (snd kv)) g.

(** [n] occurs nowhere in the graph: it has no entry and no adjacency
    dict lists it. *)
Definition absent (g : wgraph) (n : node) : bool :=
  negb (dict_mem n g) && negb (listed g n).

(** No edge of [g] leaves the set [nodes]. *)
Definition closed_under_edges (g : wgraph) (nodes : list node) : bool :=
  forallb (fun kv => negb (set_mem (fst kv) nodes)
                     || forallb (fun nw => set_mem (fst nw) nodes) (snd kv)) g.

(** ** States of the search loop *)

(** The adjacency items the search iterates over at a node. *)
Definition items_of (g : wgraph) (n : node) : adjacency :=
  match dict_get g n with Some items => items | None => [] end.

(** States the loop can be in when [dijkstra g s e] runs. *)
Inductive reachable (g : wgraph) (s e : node) : state -> Prop :=
| reach_init : reachable g s e (init_state s)
| reach_next st st' :
    reachable g s e st -> loop_body g e st = Next st' -> reachable g s e st'.

(** Items still to be pushed: those of the nodes not yet visited. *)
Definition pending (g : wgraph) (visited : list node) : nat :=
  list_sum (map (fun kv => if set_mem (fst kv) visited then 0
                           else length (snd kv)) g).

(** The quantity every loop iteration decreases. *)
Definition measure (g : wgraph) (st : state) : nat :=
  length (fst st) + pending g (snd st).

(** Every node is visited at most once, the end node never, and the
    start node by the first iteration. *)
Definition inv_visited (s e : node) (st : state) : Prop :=
  NoDup (snd st) /\ ~ In e (snd st) /\ (In s (snd st) \/ st = init_state s).

(** Every heap item carries a simple path of the graph from the start
    to its node, at its cost, through visited nodes. *)
Definition inv_entries (g : wgraph) (s : node) (st : state) : Prop :=
  forall c v p, In (c, v, p) (fst st) ->
    walk g s p v c /\ NoDup p /\ (forall x, In x p -> x = v \/ In x (snd st)).

(** Every edge that leaves the visited set is covered by a heap item
    for its target that costs no more than any path through it. *)
Definition inv_frontier (g : wgraph) (s : node) (st : state) : Prop :=
  forall u t w p d,
    In u (snd st) -> walk g s p u d -> edge g u t w -> ~ In t (snd st) ->
    exists c' p', In (c', t, p') (fst st) /\ (c' <= d + w)%Z.

(** ** Graph contents and the store *)

(** The contents of a graph after
    [if u in g and v in g[u]: del g[u][v]]. *)
Definition delete_edge (g : wgraph) (u v : node) : wgraph :=
  match dict_get g u with
  | Some items =>
      if dict_mem v items then dict_set g u (dict_del v items) else g
  | None => g
  end.

(** The graph of one iteration: the edge [(u, v)] deleted both ways. *)
Definition without_edge (g : wgraph) (u v : node) : wgraph :=
  delete_edge (delete_edge g u v) v u.

(** Every reference of the graph object points into the store. *)
Definition gref_ok (s : store) (g : gref) : bool :=
  forallb (fun kl => Nat.ltb (snd kl) (length s)) g.

(** [s'] extends [s] and leaves the objects of [s] as they were. *)
Definition preserves (s s' : store) : Prop :=
  length s <= length s' /\ forall l, l < length s -> read s' l = read s l.

(** What one iteration does to [(second_best_cost, second_best_path)],
    in terms of the contents [g] of the module's graph. *)
Definition second_choice (g : wgraph) (start end_ : node)
    (shortest_path : list node) (best : result) (i : nat) : result :=
  let u := nth i shortest_path "" in
  let v := nth (i + 1) shortest_path "" in
  let '(cost, path) := dijkstra (without_edge g u v) start end_ in
  if cost_ltb cost (fst best) && negb (path_eqb path shortest_path)
  then (cost, path)
  else best.

(** The result of [find_second_shortest_path] in terms of the contents
    of the module's graph. *)
Definition second_shortest (g : wgraph) (start end_ : node) : result :=
  let '(shortest_cost, shortest_path) := dijkstra g start end_ in
  match shortest_path with
  | [] => (Infinity, [])
  | _ :: _ =>
      fold_left (second_choice g start end_ shortest_path)
        (seq 0 (length shortest_path - 1)) (Infinity, [])
  end.

(** ** Undirected graphs and the order on costs *)

(** Every edge has a mirror edge of the same weight. *)
Definition symmetric (g : wgraph) : Prop :=
  forall u v w, edge g u v w -> edge g v u w.

(** The same, as a check on the items of every adjacency dict. *)
Definition symmetricb (g : wgraph) : bool :=
  forallb
    (fun kv =>
       forallb
         (fun nw =>
            existsb
              (fun back => String.eqb (fst back) (fst kv)
                           && Z.eqb (snd back) (snd nw))
              (items_of g (fst nw)))
         (snd kv))
    g.

(** [a <= b] on costs: not [b < a]. *)
Definition cost_leb (a b : cost) : bool := negb (cost_ltb b a).

(** The keys of the module's graph. *)
Definition module_nodes : list node :=
  ["A"; "B"; "C"; "D"; "E"; "F"; "G"; "H"; "I"; "J"].

(** What the handler answers on the module's graph for a pair of its
    nodes: a shortest path at a cost of at least 0, no second path from a
    node to itself, and otherwise a second path that is no cheaper. *)
Definition module_pair_ok (a b : node) : bool :=
  let r1 := dijkstra graph a b in
  let r2 := fst (find_second_shortest_path graph_store graph_ref a b) in
  match fst r1 with
  | Infinity => false
  | Finite z =>
      (0 <=? z)%Z && negb (path_eqb (snd r1) [])
      && (if String.eqb a b
          then match fst r2 with
               | Infinity => path_eqb (snd r2) []
               | Finite _ => false
               end
          else match fst r2 with
               | Infinity => false
               | Finite z2 => (z <=? z2)%Z && negb (path_eqb (snd r2) [])
               end)
  end.

(** ** Basic facts *)

Lemma set_mem_In : forall x s, set_mem x s = true <-> In x s.
Proof.
  intros x s. unfold set_mem. rewrite existsb_exists. split.
  - intros [y [Hy E]]. apply String.eqb_eq in E. subst. exact Hy.
  - intros H. exists x. split; [exact H | apply String.eqb_refl].
Qed.

Lemma set_mem_not_In : forall x s, set_mem x s = false <-> ~ In x s.
Proof.
  intros x s. rewrite <- set_mem_In. destruct (set_mem x s); split; congruence.
Qed.

(** In a dict, the items are the bindings of the keys. *)
Lemma dict_wf_get : forall (V : Type) (d : list (string * V)) k v,
  dict_wf d -> (In (k, v) d <-> dict_get d k = Some v).
Proof.
  intros V d k v. unfold dict_wf.
  induction d as [|[k0 v0] d IH]; simpl; intros ND.
  - split; [intros [] | discriminate].
  - inversion ND as [|? ? Hnin ND']; subst.
    destruct (String.eqb k k0) eqn:E.
    + apply String.eqb_eq in E. subst k0. split.
      * intros [H | H]; [congruence |].
        exfalso. apply Hnin. apply in_map_iff. exists (k, v). auto.
      * intros H. left. congruence.
    + apply String.eqb_neq in E. rewrite <- (IH ND'). split.
      * intros [H | H]; [congruence | exact H].
      * auto.
Qed.

Lemma path_eqb_eq : forall p q, path_eqb p q = true <-> p = q.
Proof.
  induction p as [|x p IH]; destruct q as [|y q]; simpl; split;
    try congruence; try reflexivity.
  - intros H. apply andb_true_iff in H as [H1 H2].
    apply String.eqb_eq in H1. apply IH in H2. congruence.
  - intros H. inversion H; subst. rewrite String.eqb_refl. simpl.
    apply IH. reflexivity.
Qed.

Lemma path_compare_eq : forall p q, path_compare p q = Eq -> p = q.
Proof.
  induction p as [|x p IH]; destruct q as [|y q]; simpl; try congruence.
  destruct (String.compare x y) eqn:E; try congruence.
  intros H. apply String.compare_eq_iff in E. f_equal; auto.
Qed.

(** The order on heap items identifies only equal items. *)
Lemma entry_compare_eq : forall a b, entry_compare a b = Eq -> a = b.
Proof.
  intros [[c1 n1] p1] [[c2 n2] p2].
  unfold entry_compare, entry_cost, entry_node, entry_path. simpl.
  destruct (Z.compare c1 c2) eqn:Ec; try congruence.
  destruct (String.compare n1 n2) eqn:En; try congruence.
  intros Hp. apply Z.compare_eq in Ec. apply String.compare_eq_iff in En.
  apply path_compare_eq in Hp. congruence.
Qed.

Lemma entry_ltb_true_cost : forall a b,
  entry_ltb a b = true -> (entry_cost a <= entry_cost b)%Z.
Proof.
  intros a b. unfold entry_ltb, entry_compare.
  destruct (Z.compare (entry_cost a) (entry_cost b)) eqn:E; intros H;
    try discriminate H.
  - apply Z.compare_eq in E. lia.
  - rewrite Z.compare_lt_iff in E. lia.
Qed.

Lemma entry_ltb_false_cost : forall a b,
  entry_ltb a b = false -> (entry_cost b <= entry_cost a)%Z.
Proof.
  intros a b. unfold entry_ltb, entry_compare.
  destruct (Z.compare (entry_cost a) (entry_cost b)) eqn:E; intros H;
    try discriminate H.
  - apply Z.compare_eq in E. lia.
  - rewrite Z.compare_gt_iff in E. lia.
Qed.

(** ** The heap contract *)

Lemma extract_min_perm : forall h m least others,
  extract_min m h = (least, others) -> Permutation (m :: h) (least :: others).
Proof.
  induction h as [|x t IH]; intros m least others H; simpl in H.
  - inversion H; subst. apply Permutation_refl.
  - destruct (entry_ltb x m).
    + destruct (extract_min x t) as [l o] eqn:E. inversion H; subst.
      apply IH in E. eapply perm_trans; [apply perm_skip, E | apply perm_swap].
    + destruct (extract_min m t) as [l o] eqn:E. inversion H; subst.
      apply IH in E. eapply perm_trans; [apply perm_swap |].
      eapply perm_trans; [apply perm_skip, E | apply perm_swap].
Qed.

Lemma extract_min_least : forall h m least others,
  extract_min m h = (least, others) ->
  forall x, In x (m :: h) -> (entry_cost least <= entry_cost x)%Z.
Proof.
  induction h as [|x t IH]; intros m least others H y Hy; simpl in H.
  - inversion H; subst. destruct Hy as [<- | []]. lia.
  - destruct (entry_ltb x m) eqn:L.
    + destruct (extract_min x t) as [l o] eqn:E. inversion H; subst.
      apply entry_ltb_true_cost in L.
      pose proof (IH _ _ _ E x (or_introl eq_refl)) as Hx.
      destruct Hy as [<- | Hy]; [lia | exact (IH _ _ _ E y Hy)].
    + destruct (extract_min m t) as [l o] eqn:E. inversion H; subst.
      apply entry_ltb_false_cost in L.
      pose proof (IH _ _ _ E m (or_introl eq_refl)) as Hm.
      destruct Hy as [<- | [<- | Hy]]; [exact Hm | lia |].
      exact (IH _ _ _ E y (or_intror Hy)).
Qed.

Lemma heappop_perm : forall heap item rest,
  heappop heap = Some (item, rest) -> Permutation heap (item :: rest).
Proof.
  intros [|x t] item rest H; simpl in H; [discriminate |].
  inversion H as [E]. apply extract_min_perm in E. exact E.
Qed.

Lemma heappop_least : forall heap item rest,
  heappop heap = Some (item, rest) ->
  forall x, In x heap -> (entry_cost item <= entry_cost x)%Z.
Proof.
  intros [|x t] item rest H; simpl in H; [discriminate |].
  inversion H as [E]. exact (extract_min_least _ _ _ _ E).
Qed.

Lemma heappop_In : forall heap item rest,
  heappop heap = Some (item, rest) -> In item heap.
Proof.
  intros heap item rest H. apply heappop_perm in H.
  apply Permutation_sym in H. eapply Permutation_in; [exact H | left; reflexivity].
Qed.

Lemma heappop_rest : forall heap item rest x,
  heappop heap = Some (item, rest) -> In x rest -> In x heap.
Proof.
  intros heap item rest x H Hx. apply heappop_perm in H.
  apply Permutation_sym in H. eapply Permutation_in; [exact H | right; exact Hx].
Qed.

Lemma heappop_cases : forall heap item rest x,
  heappop heap = Some (item, rest) -> In x heap -> x = item \/ In x rest.
Proof.
  intros heap item rest x H Hx. apply heappop_perm in H.
  apply (Permutation_in _ H) in Hx. destruct Hx as [-> | Hx]; auto.
Qed.

Lemma heappop_length : forall heap item rest,
  heappop heap = Some (item, rest) -> length heap = S (length rest).
Proof.
  intros heap item rest H. apply heappop_perm in H.
  apply Permutation_length in H. exact H.
Qed.

Lemma heappop_None : forall heap, heappop heap = None -> heap = [].
Proof. intros [|x t] H; [reflexivity | discriminate]. Qed.

(** The order on heap items is a strict total order. *)

Lemma string_compare_refl : forall s : string, String.compare s s = Eq.
Proof. intros s. apply OrderedTypeEx.String_as_OT.cmp_eq. reflexivity. Qed.

Lemma string_compare_trans : forall a b c : string,
  String.compare a b = Lt -> String.compare b c = Lt -> String.compare a c = Lt.
Proof.
  intros a b c H1 H2.
  apply OrderedTypeEx.String_as_OT.cmp_lt in H1, H2.
  apply OrderedTypeEx.String_as_OT.cmp_lt.
  exact (OrderedTypeEx.String_as_OT.lt_trans _ _ _ H1 H2).
Qed.

Lemma path_compare_refl : forall p, path_compare p p = Eq.
Proof.
  induction p as [|x p IH]; simpl; [reflexivity |].
  rewrite string_compare_refl. exact IH.
Qed.

Lemma path_compare_antisym : forall p q,
  path_compare q p = CompOpp (path_compare p q).
Proof.
  induction p as [|x p IH]; destruct q as [|y q]; simpl; try reflexivity.
  rewrite (String.compare_antisym x y).
  destruct (String.compare y x); simpl; auto.
Qed.

Lemma path_compare_trans : forall p q r,
  path_compare p q = Lt -> path_compare q r = Lt -> path_compare p r = Lt.
Proof.
  induction p as [|x p IH]; destruct q as [|y q]; destruct r as [|z r]; simpl;
    try congruence.
  destruct (String.compare x y) eqn:E1; destruct (String.compare y z) eqn:E2;
    try congruence; intros H1 H2.
  - apply String.compare_eq_iff in E1, E2. subst.
    rewrite string_compare_refl. eauto.
  - apply String.compare_eq_iff in E1. subst. rewrite E2. reflexivity.
  - apply String.compare_eq_iff in E2. subst. rewrite E1. reflexivity.
  - rewrite (string_compare_trans _ _ _ E1 E2). reflexivity.
Qed.

Lemma entry_compare_antisym : forall a b,
  entry_compare b a = CompOpp (entry_compare a b).
Proof.
  intros a b. unfold entry_compare.
  rewrite (Z.compare_antisym (entry_cost a) (entry_cost b)).
  rewrite (String.compare_antisym (entry_node b) (entry_node a)).
  rewrite (path_compare_antisym (entry_path a) (entry_path b)).
  destruct (Z.compare (entry_cost a) (entry_cost b)); simpl; auto.
  destruct (String.compare (entry_node a) (entry_node b)); simpl; auto.
Qed.

Lemma entry_compare_trans : forall a b c,
  entry_compare a b = Lt -> entry_compare b c = Lt -> entry_compare a c = Lt.
Proof.
  intros a b c. unfold entry_compare.
  destruct (Z.compare (entry_cost a) (entry_cost b)) eqn:Z1;
    destruct (Z.compare (entry_cost b) (entry_cost c)) eqn:Z2;
    try congruence;
    try (apply Z.compare_eq in Z1); try (apply Z.compare_eq in Z2);
    try rewrite Z.compare_lt_iff in *.
  - rewrite Z1, Z2, Z.compare_refl.
    destruct (String.compare (entry_node a) (entry_node b)) eqn:S1;
      destruct (String.compare (entry_node b) (entry_node c)) eqn:S2;
      try congruence; intros H1 H2.
    + apply String.compare_eq_iff in S1, S2. rewrite S1, S2.
      rewrite string_compare_refl. eapply path_compare_trans; eauto.
    + apply String.compare_eq_iff in S1. rewrite S1, S2. reflexivity.
    + apply String.compare_eq_iff in S2. rewrite <- S2, S1. reflexivity.
    + rewrite (string_compare_trans _ _ _ S1 S2). reflexivity.
  - intros _ _. rewrite Z1.
    destruct (Z.compare (entry_cost b) (entry_cost c)) eqn:Z3;
      try reflexivity; [apply Z.compare_eq in Z3 | rewrite Z.compare_gt_iff in Z3];
      lia.
  - intros _ _. rewrite <- Z2.
    destruct (Z.compare (entry_cost a) (entry_cost b)) eqn:Z3;
      try reflexivity; [apply Z.compare_eq in Z3 | rewrite Z.compare_gt_iff in Z3];
      lia.
  - intros _ _.
    destruct (Z.compare (entry_cost a) (entry_cost c)) eqn:Z3;
      try reflexivity; [apply Z.compare_eq in Z3 | rewrite Z.compare_gt_iff in Z3];
      lia.
Qed.

(** [a <= b] in the order on heap items: not [b < a]. *)
Lemma entry_le_trans : forall a b c,
  entry_ltb b a = false -> entry_ltb c b = false -> entry_ltb c a = false.
Proof.
  intros a b c H1 H2. unfold entry_ltb in *.
  destruct (entry_compare c a) eqn:E; try reflexivity. exfalso.
  destruct (entry_compare b a) eqn:E1; try discriminate.
  - apply entry_compare_eq in E1. subst b. rewrite E in H2. discriminate.
  - destruct (entry_compare c b) eqn:E2; try discriminate.
    + apply entry_compare_eq in E2. subst c. congruence.
    + pose proof (entry_compare_antisym b a) as A1.
      pose proof (entry_compare_antisym c b) as A2.
      rewrite E1 in A1. rewrite E2 in A2. simpl in A1, A2.
      pose proof (entry_compare_trans _ _ _ A1 A2) as T.
      pose proof (entry_compare_antisym c a) as A3.
      rewrite E in A3. simpl in A3. congruence.
Qed.

Lemma entry_ltb_irrefl : forall a, entry_ltb a a = false.
Proof.
  intros a. unfold entry_ltb.
  destruct (entry_compare a a) eqn:E; try reflexivity.
  pose proof (entry_compare_antisym a a) as A. rewrite E in A. discriminate.
Qed.

Lemma entry_ltb_asym : forall a b, entry_ltb a b = true -> entry_ltb b a = false.
Proof.
  intros a b. unfold entry_ltb.
  rewrite (entry_compare_antisym a b).
  destruct (entry_compare a b); simpl; congruence.
Qed.

(** [heappop] returns the least item under Python's order on tuples: no
    item of the heap is less than it. *)
Lemma extract_min_least_item : forall h m least others,
  extract_min m h = (least, others) ->
  forall x, In x (m :: h) -> entry_ltb x least = false.
Proof.
  induction h as [|x t IH]; intros m least others H y Hy; simpl in H.
  - inversion H; subst. destruct Hy as [<- | []]. apply entry_ltb_irrefl.
  - destruct (entry_ltb x m) eqn:L.
    + destruct (extract_min x t) as [l o] eqn:E. inversion H; subst.
      destruct Hy as [<- | Hy]; [|exact (IH _ _ _ E y Hy)].
      apply entry_le_trans with (b := x).
      * exact (IH _ _ _ E x (or_introl eq_refl)).
      * apply entry_ltb_asym. exact L.
    + destruct (extract_min m t) as [l o] eqn:E. inversion H; subst.
      destruct Hy as [<- | [<- | Hy]].
      * exact (IH _ _ _ E m (or_introl eq_refl)).
      * apply entry_le_trans with (b := m); [|exact L].
        exact (IH _ _ _ E m (or_introl eq_refl)).
      * exact (IH _ _ _ E y (or_intror Hy)).
Qed.

Lemma heappop_least_item : forall heap item rest,
  heappop heap = Some (item, rest) ->
  forall x, In x heap -> entry_ltb x item = false.
Proof.
  intros [|x t] item rest H; simpl in H; [discriminate |].
  inversion H as [E]. exact (extract_min_least_item _ _ _ _ E).
Qed.

(** What the neighbour loop leaves in the heap. *)
Lemma push_neighbors_In : forall visited cost path items heap x,
  In x (push_neighbors visited cost path items heap) <->
  In x heap \/
  exists v w, In (v, w) items /\ set_mem v visited = false /\
              x = ((cost + w)%Z, v, path ++ [v]).
Proof.
  intros visited cost path items. induction items as [|[v w] rest IH];
    intros heap x; simpl.
  - split; [auto | intros [H | [v [w [[] _]]]]; exact H].
  - destruct (set_mem v visited) eqn:M; rewrite IH.
    + split.
      * intros [H | [v' [w' [Hin [Hm Hx]]]]]; [auto |].
        right. exists v', w'. auto.
      * intros [H | [v' [w' [[Heq | Hin] [Hm Hx]]]]]; [auto | |].
        -- inversion Heq; subst. congruence.
        -- right. exists v', w'. auto.
    + unfold heappush. rewrite in_app_iff. simpl. split.
      * intros [[H | [H | []]] | [v' [w' [Hin [Hm Hx]]]]]; [auto | |].
        -- right. exists v, w. auto.
        -- right. exists v', w'. auto.
      * intros [H | [v' [w' [[Heq | Hin] [Hm Hx]]]]]; [auto | |].
        -- inversion Heq; subst. auto.
        -- right. exists v', w'. auto.
Qed.

Lemma push_neighbors_length : forall visited cost path items heap,
  length (push_neighbors visited cost path items heap) <=
  length heap + length items.
Proof.
  intros visited cost path items. induction items as [|[v w] rest IH];
    intros heap; simpl; [lia |].
  destruct (set_mem v visited).
  - specialize (IH heap). lia.
  - specialize (IH (heappush heap ((cost + w)%Z, v, path ++ [v]))).
    unfold heappush in *. rewrite length_app in IH. simpl in IH. lia.
Qed.

(** ** Termination of the loop *)

Lemma set_mem_cons : forall x n visited,
  set_mem x (n :: visited) = String.eqb x n || set_mem x visited.
Proof. reflexivity. Qed.

Lemma pending_cons : forall k (items : adjacency) g visited,
  pending ((k, items) :: g) visited =
  (if set_mem k visited then 0 else length items) + pending g visited.
Proof. reflexivity. Qed.

Lemma pending_visit_le : forall g n visited,
  pending g (n :: visited) <= pending g visited.
Proof.
  intros g n visited.
  induction g as [|[k items] g IH]; [unfold pending; simpl; lia |].
  rewrite !pending_cons, set_mem_cons.
  destruct (String.eqb k n); destruct (set_mem k visited); cbn [orb]; lia.
Qed.

Lemma pending_visit : forall g n visited items,
  dict_get g n = Some items -> set_mem n visited = false ->
  pending g (n :: visited) + length items <= pending g visited.
Proof.
  intros g n visited items. induction g as [|[k its] g IH];
    intros G M; simpl in G; [discriminate |].
  rewrite !pending_cons, set_mem_cons.
  destruct (String.eqb n k) eqn:E.
  - apply String.eqb_eq in E. subst k. inversion G; subst its.
    rewrite String.eqb_refl, M. cbn [orb].
    pose proof (pending_visit_le g n visited) as L. lia.
  - specialize (IH G M).
    destruct (String.eqb k n); destruct (set_mem k visited); cbn [orb]; lia.
Qed.

Lemma edge_items_of : forall g u v w, edge g u v w <-> In (v, w) (items_of g u).
Proof.
  intros g u v w. unfold edge, items_of. split.
  - intros [items [G H]]. rewrite G. exact H.
  - destruct (dict_get g u) as [items|]; [|intros []].
    intros H. exists items. auto.
Qed.

(** The two ways an iteration continues the loop. *)
Lemma loop_body_Next : forall g e heap visited st',
  loop_body g e (heap, visited) = Next st' ->
  exists c n p rest,
    heappop heap = Some ((c, n, p), rest) /\ n <> e /\
    ((In n visited /\ st' = (rest, visited)) \/
     (~ In n visited /\
      st' = (push_neighbors (n :: visited) c p (items_of g n) rest,
             n :: visited))).
Proof.
  intros g e heap visited st' H. unfold loop_body in H.
  destruct (heappop heap) as [[[[c n] p] rest]|] eqn:P; [|discriminate].
  exists c, n, p, rest. split; [reflexivity |].
  destruct (String.eqb n e) eqn:E; [discriminate |].
  apply String.eqb_neq in E. split; [exact E |].
  destruct (set_mem n visited) eqn:M.
  - left. apply set_mem_In in M. inversion H; auto.
  - right. apply set_mem_not_In in M. split; [exact M |].
    unfold items_of. destruct (dict_get g n); inversion H; reflexivity.
Qed.

(** The two ways an iteration leaves the function. *)
Lemma loop_body_Return : forall g e heap visited r,
  loop_body g e (heap, visited) = Return r ->
  (heap = [] /\ r = (Infinity, [])) \/
  (exists c p rest, heappop heap = Some ((c, e, p), rest) /\ r = (Finite c, p)).
Proof.
  intros g e heap visited r H. unfold loop_body in H.
  destruct (heappop heap) as [[[[c n] p] rest]|] eqn:P.
  - right. destruct (String.eqb n e) eqn:E.
    + apply String.eqb_eq in E. subst n. inversion H. eauto.
    + destruct (set_mem n visited); [discriminate |].
      destruct (dict_get g n); discriminate.
  - left. apply heappop_None in P. inversion H. auto.
Qed.

Lemma measure_decreases : forall g e st st',
  loop_body g e st = Next st' -> measure g st' < measure g st.
Proof.
  intros g e [heap visited] st' H.
  apply loop_body_Next in H as [c [n [p [rest [P [_ [[Hin ->] | [Hnin ->]]]]]]]];
    apply heappop_length in P; unfold measure; cbn [fst snd].
  - lia.
  - pose proof (push_neighbors_length (n :: visited) c p (items_of g n) rest) as L.
    apply set_mem_not_In in Hnin. unfold items_of in *.
    destruct (dict_get g n) as [items|] eqn:G.
    + pose proof (pending_visit g n visited items G Hnin). lia.
    + pose proof (pending_visit_le g n visited).
      cbn [push_neighbors length] in *. lia.
Qed.

Lemma dijkstra_loop_S : forall fuel g e st,
  dijkstra_loop (S fuel) g e st =
  match loop_body g e st with
  | Return r => Some r
  | Next st' => dijkstra_loop fuel g e st'
  end.
Proof. reflexivity. Qed.

Lemma dijkstra_loop_total : forall g e fuel st,
  measure g st < fuel -> exists r, dijkstra_loop fuel g e st = Some r.
Proof.
  intros g e fuel. induction fuel as [|fuel IH]; intros st M; [lia |].
  simpl. destruct (loop_body g e st) as [r | st'] eqn:B.
  - exists r. reflexivity.
  - apply IH. apply measure_decreases in B. lia.
Qed.

Lemma dijkstra_loop_mono : forall g e fuel fuel' st r,
  dijkstra_loop fuel g e st = Some r -> fuel <= fuel' ->
  dijkstra_loop fuel' g e st = Some r.
Proof.
  intros g e fuel. induction fuel as [|fuel IH]; intros fuel' st r H L;
    [discriminate |].
  destruct fuel' as [|fuel']; [lia |]. simpl in *.
  destruct (loop_body g e st); [exact H |].
  apply IH; [exact H | lia].
Qed.

Lemma measure_init : forall g s, measure g (init_state s) < fuel_bound g.
Proof.
  intros g s. unfold measure, fuel_bound, init_state, pending, total_items.
  simpl. lia.
Qed.

Lemma dijkstra_fuel_enough : forall g s e fuel,
  fuel_bound g <= fuel -> dijkstra_fuel fuel g s e = Some (dijkstra g s e).
Proof.
  intros g s e fuel L. unfold dijkstra, dijkstra_fuel.
  destruct (dijkstra_loop_total g e (fuel_bound g) (init_state s)
              (measure_init g s)) as [r R].
  rewrite R. exact (dijkstra_loop_mono _ _ _ _ _ _ R L).
Qed.

Lemma dijkstra_loop_reachable : forall g s e fuel st r,
  reachable g s e st -> dijkstra_loop fuel g e st = Some r ->
  exists st', reachable g s e st' /\ loop_body g e st' = Return r.
Proof.
  intros g s e fuel. induction fuel as [|fuel IH]; intros st r R H;
    [discriminate |].
  simpl in H. destruct (loop_body g e st) as [r' | st'] eqn:B.
  - inversion H; subst. exists st. auto.
  - apply (IH st'); [|exact H]. eapply reach_next; eauto.
Qed.

(** [dijkstra] returns from a state the loop reaches. *)
Lemma dijkstra_returns : forall g s e,
  exists st, reachable g s e st /\ loop_body g e st = Return (dijkstra g s e).
Proof.
  intros g s e.
  pose proof (dijkstra_fuel_enough g s e (fuel_bound g) (Nat.le_refl _)) as H.
  unfold dijkstra_fuel in H.
  eapply dijkstra_loop_reachable; [apply reach_init | exact H].
Qed.

(** ** Invariants of the loop *)

Lemma NoDup_snoc : forall (p : list node) v,
  NoDup p -> ~ In v p -> NoDup (p ++ [v]).
Proof.
  intros p v Hp Hv. apply (Permutation_NoDup (Permutation_cons_append p v)).
  constructor; assumption.
Qed.

Lemma dict_get_In : forall (V : Type) (d : list (string * V)) k v,
  dict_get d k = Some v -> In (k, v) d.
Proof.
  intros V d k v. induction d as [|[k0 v0] d IH]; simpl; intros G;
    [discriminate |].
  destruct (String.eqb k k0) eqn:E.
  - apply String.eqb_eq in E. inversion G; subst. left. reflexivity.
  - right. auto.
Qed.

Lemma nonneg_weights_edge : forall g u v w,
  nonneg_weights g = true -> edge g u v w -> (0 <= w)%Z.
Proof.
  intros g u v w H [items [G I]]. unfold nonneg_weights in H.
  rewrite forallb_forall in H.
  pose proof (dict_get_In _ _ _ _ G) as Hin.
  specialize (H _ Hin). simpl in H. rewrite forallb_forall in H.
  specialize (H _ I). simpl in H. apply Z.leb_le in H. exact H.
Qed.

Lemma nonneg_weights_sound : forall g,
  nonneg_weights g = true -> weights_nonneg g.
Proof. intros g H u v w E. exact (nonneg_weights_edge g u v w H E). Qed.

Section Invariants.
Variable g : wgraph.
Variables s e : node.

Lemma heappop_seed : forall item rest,
  heappop (fst (init_state s)) = Some (item, rest) ->
  item = (0%Z, s, [s]) /\ rest = [].
Proof. simpl. intros item rest H. inversion H. auto. Qed.

Lemma reachable_inv : forall st,
  reachable g s e st -> inv_visited s e st /\ inv_entries g s st.
Proof.
  intros st R. induction R as [|[heap visited] st' R [[ND [NE SV]] IE] B].
  - split.
    + unfold inv_visited. simpl. repeat split; auto. constructor.
    + intros c v p [H | []]. inversion H; subst. repeat split.
      * constructor.
      * constructor; [intros [] | constructor].
      * intros x [<- | []]. left. reflexivity.
  - simpl in ND, NE, SV.
    apply loop_body_Next in B
      as [c [n [p [rest [P [Hne [[Hin ->] | [Hnin ->]]]]]]]].
    + split.
      * unfold inv_visited. simpl. repeat split; auto.
        destruct SV as [SV | SV]; [left; exact SV |].
        inversion SV; subst. destruct Hin.
      * intros c' v' p' H. simpl in H.
        apply (IE c' v' p'). simpl. eapply heappop_rest; eauto.
    + destruct (IE c n p (heappop_In _ _ _ P)) as [Wn [NDp Sub]].
      simpl in Sub. split.
      * unfold inv_visited. simpl. repeat split.
        -- constructor; assumption.
        -- intros [H | H]; [congruence | contradiction].
        -- left. destruct SV as [SV | SV]; [right; exact SV |].
           inversion SV; subst.
           destruct (heappop_seed _ _ P) as [H _]. inversion H. left. reflexivity.
      * intros c' v' p' H. simpl in H.
        apply push_neighbors_In in H as [H | [v [w [Hi [Hm Hx]]]]].
        -- destruct (IE c' v' p' (heappop_rest _ _ _ _ P H)) as [W' [ND' Sub']].
           repeat split; auto. intros x Hx. simpl.
           destruct (Sub' x Hx) as [-> | Hv]; auto.
        -- inversion Hx; subst. apply set_mem_not_In in Hm.
           assert (forall x, In x p -> In x (n :: visited)) as Sub2.
           { intros x Hx'. destruct (Sub x Hx') as [-> | Hv];
               [left; reflexivity | right; exact Hv]. }
           repeat split.
           ++ apply walk_step with (u := n); [exact Wn |].
              apply edge_items_of. exact Hi.
           ++ apply NoDup_snoc; [exact NDp |]. intros Hv. apply Hm. auto.
           ++ intros x Hx'. apply in_app_iff in Hx' as [Hx' | [<- | []]].
              ** right. simpl. apply Sub2. exact Hx'.
              ** left. reflexivity.
Qed.

Hypothesis weights : weights_nonneg g.

(** Every path to an unvisited node passes a heap item for an unvisited
    node that costs no more than the path. *)
Lemma frontier_covers : forall st,
  inv_visited s e st -> inv_frontier g s st ->
  forall q t d, walk g s q t d -> ~ In t (snd st) ->
  exists c x p, In (c, x, p) (fst st) /\ ~ In x (snd st) /\ (c <= d)%Z.
Proof.
  intros st [_ [_ SV]] IF q t d W.
  induction W as [|p u c v w W IH E]; intros Ht.
  - destruct SV as [SV | ->]; [contradiction |].
    exists 0%Z, s, [s]. simpl. repeat split; auto. lia.
  - destruct (set_mem u (snd st)) eqn:M.
    + apply set_mem_In in M.
      destruct (IF u v w p c M W E Ht) as [c' [p' [Hin Hle]]].
      exists c', v, p'. auto.
    + apply set_mem_not_In in M.
      destruct (IH M) as [c' [x [p' [Hin [Hx Hle]]]]].
      exists c', x, p'. repeat split; auto.
      pose proof (weights _ _ _ E). lia.
Qed.

Lemma reachable_frontier : forall st,
  reachable g s e st -> inv_frontier g s st.
Proof.
  intros st R. induction R as [|[heap visited] st' R IF B].
  - intros u t w p d [].
  - destruct (reachable_inv _ R) as [IV IE].
    pose proof (frontier_covers _ IV IF) as Cov. simpl in Cov.
    apply loop_body_Next in B
      as [c [n [p [rest [P [Hne [[Hin ->] | [Hnin ->]]]]]]]];
      intros u t w p0 d Hu W E Ht; simpl in Hu, Ht; simpl.
    + destruct (IF u t w p0 d Hu W E Ht) as [c' [p' [H L]]]. simpl in H.
      exists c', p'. split; [|exact L].
      destruct (heappop_cases _ _ _ _ P H) as [Heq | Hr]; [|exact Hr].
      inversion Heq; subst. contradiction.
    + destruct Hu as [<- | Hu].
      * exists (c + w)%Z, (p ++ [t]). split.
        -- apply push_neighbors_In. right. exists t, w.
           repeat split; [apply edge_items_of; exact E |].
           apply set_mem_not_In. exact Ht.
        -- destruct (Cov p0 n d W Hnin) as [c' [x [p' [H [_ L]]]]].
           pose proof (heappop_least _ _ _ P _ H) as Lm.
           unfold entry_cost in Lm. simpl in Lm. lia.
      * assert (~ In t visited) as Ht' by (intros H; apply Ht; right; exact H).
        destruct (IF u t w p0 d Hu W E Ht') as [c' [p' [H L]]]. simpl in H.
        exists c', p'. split; [|exact L].
        apply push_neighbors_In. left.
        destruct (heappop_cases _ _ _ _ P H) as [Heq | Hr]; [|exact Hr].
        inversion Heq; subst. exfalso. apply Ht. left. reflexivity.
Qed.
End Invariants.

(** ** What [dijkstra] returns *)

Lemma dijkstra_finite : forall g s e c p,
  dijkstra g s e = (Finite c, p) -> walk g s p e c /\ NoDup p.
Proof.
  intros g s e c p H.
  destruct (dijkstra_returns g s e) as [[heap visited] [R B]].
  rewrite H in B.
  apply loop_body_Return in B as [[_ B] | [c' [p' [rest [P B]]]]];
    [discriminate |].
  inversion B; subst c' p'.
  destruct (reachable_inv g s e _ R) as [_ IE].
  destruct (IE c e p (heappop_In _ _ _ P)) as [W [ND _]]. auto.
Qed.

Lemma dijkstra_cases : forall g s e,
  dijkstra g s e = unreachable \/ exists c p, dijkstra g s e = (Finite c, p).
Proof.
  intros g s e.
  destruct (dijkstra_returns g s e) as [[heap visited] [R B]].
  apply loop_body_Return in B as [[_ B] | [c [p [rest [_ B]]]]]; eauto.
Qed.

Lemma dijkstra_no_walk : forall g s e,
  (forall q d, ~ walk g s q e d) -> dijkstra g s e = unreachable.
Proof.
  intros g s e H. destruct (dijkstra_cases g s e) as [U | [c [p F]]];
    [exact U |].
  apply dijkstra_finite in F as [W _]. destruct (H _ _ W).
Qed.

Lemma dijkstra_least : forall g s e c p,
  weights_nonneg g -> dijkstra g s e = (Finite c, p) ->
  forall q d, walk g s q e d -> (c <= d)%Z.
Proof.
  intros g s e c p N H q d W.
  destruct (dijkstra_returns g s e) as [[heap visited] [R B]].
  rewrite H in B.
  apply loop_body_Return in B as [[_ B] | [c' [p' [rest [P B]]]]];
    [discriminate |].
  inversion B; subst c' p'.
  destruct (reachable_inv g s e _ R) as [IV _].
  pose proof (reachable_frontier g s e N _ R) as IF.
  destruct IV as [ND [NE SV]].
  destruct (frontier_covers g s e N _ (conj ND (conj NE SV)) IF q e d W NE)
    as [c' [x [p' [Hin [_ L]]]]].
  pose proof (heappop_least _ _ _ P _ Hin) as Lm.
  unfold entry_cost in Lm. simpl in Lm. lia.
Qed.

Lemma dijkstra_reaches : forall g s e q d,
  weights_nonneg g -> walk g s q e d ->
  exists c p, dijkstra g s e = (Finite c, p).
Proof.
  intros g s e q d N W. destruct (dijkstra_cases g s e) as [U | F]; [|exact F].
  exfalso.
  destruct (dijkstra_returns g s e) as [[heap visited] [R B]].
  rewrite U in B.
  apply loop_body_Return in B as [[E _] | [c' [p' [rest [_ B]]]]];
    [|discriminate].
  destruct (reachable_inv g s e _ R) as [[ND [NE SV]] _].
  pose proof (reachable_frontier g s e N _ R) as IF.
  destruct (frontier_covers g s e N _ (conj ND (conj NE SV)) IF q e d W NE)
    as [c' [x [p' [Hin _]]]].
  simpl in Hin. rewrite E in Hin. destruct Hin.
Qed.

(** ** Shape of a path *)

Lemma sum_weights_snoc : forall ws w,
  sum_weights (ws ++ [w]) = (sum_weights ws + w)%Z.
Proof.
  induction ws as [|x ws IH]; intros w; simpl; [lia |].
  rewrite IH. lia.
Qed.

(** A walk begins at its start, ends at its end, and its cost is the sum
    of the weights of the edges between consecutive nodes. *)
Lemma walk_shape : forall g s p t c,
  walk g s p t c ->
  hd_error p = Some s /\ last p "" = t /\
  exists ws, length p = S (length ws) /\
    (forall i, i < length ws ->
       edge g (nth i p "") (nth (S i) p "") (nth i ws 0%Z)) /\
    c = sum_weights ws.
Proof.
  intros g s p t c W. induction W as [|p u c v w W [Hh [Hl [ws [Len [Ed Sum]]]]] E].
  - repeat split. exists []. repeat split. intros i Hi. inversion Hi.
  - split; [|split].
    + destruct p; [discriminate | exact Hh].
    + apply last_last.
    + exists (ws ++ [w]). rewrite !length_app. simpl. split; [lia |]. split.
      * intros i Hi.
        assert (i < length ws \/ i = length ws) as [Hi' | ->] by lia.
        -- rewrite !app_nth1 by lia. apply Ed. exact Hi'.
        -- rewrite app_nth1 by lia. rewrite <- Len.
           rewrite app_nth2 by lia. rewrite Nat.sub_diag.
           rewrite app_nth2 by lia. rewrite Nat.sub_diag. simpl.
           assert (nth (length ws) p "" = u) as ->; [|exact E].
           clear - Hl Len. rewrite <- Hl.
           assert (length ws = length p - 1) as -> by lia.
           clear Len Hl. induction p as [|a [|b p] IH]; try reflexivity.
           change (last (a :: b :: p) "") with (last (b :: p) "").
           rewrite <- IH. simpl. rewrite Nat.sub_0_r. reflexivity.
      * rewrite sum_weights_snoc. lia.
Qed.

(** Conversely, a node sequence whose consecutive pairs are edges is a
    walk, at the sum of the weights. *)
Lemma edges_walk : forall g ws p,
  length p = S (length ws) ->
  (forall i, i < length ws ->
     edge g (nth i p "") (nth (S i) p "") (nth i ws 0%Z)) ->
  walk g (nth 0 p "") p (last p "") (sum_weights ws).
Proof.
  intros g ws. induction ws as [|w ws IH] using rev_ind; intros p Len Ed.
  - destruct p as [|a [|b p]]; try discriminate. simpl. constructor.
  - rewrite length_app in Len. simpl in Len.
    destruct (exists_last (l := p)) as [p' [v ->]];
      [intros ->; discriminate |].
    rewrite length_app in Len. simpl in Len.
    assert (length p' = S (length ws)) as Len' by lia.
    rewrite last_last, sum_weights_snoc, app_nth1 by lia.
    assert (walk g (nth 0 p' "") p' (last p' "") (sum_weights ws)) as W.
    { apply IH; [exact Len' |]. intros i Hi.
      assert (i < length (ws ++ [w])) as Hi' by (rewrite length_app; simpl; lia).
      specialize (Ed i Hi'). rewrite !app_nth1 in Ed by lia. exact Ed. }
    apply walk_step with (u := last p' ""); [exact W |].
    assert (length ws < length (ws ++ [w])) as Hl
      by (rewrite length_app; simpl; lia).
    specialize (Ed (length ws) Hl).
    rewrite app_nth1 in Ed by lia.
    rewrite (app_nth2 p') in Ed by lia.
    rewrite (app_nth2 ws) in Ed by lia.
    rewrite Len', !Nat.sub_diag in Ed. simpl in Ed.
    assert (nth (length ws) p' "" = last p' "") as <-; [|exact Ed].
    assert (length ws = length p' - 1) as -> by lia.
    clear. induction p' as [|a [|b p] IHp]; try reflexivity.
    change (last (a :: b :: p) "") with (last (b :: p) "").
    rewrite <- IHp. simpl. rewrite Nat.sub_0_r. reflexivity.
Qed.

(** ** Deleting an edge *)

Lemma dict_get_set : forall (V : Type) (d : list (string * V)) k k' v x,
  dict_get d k = Some x ->
  dict_get (dict_set d k v) k' = if String.eqb k' k then Some v else dict_get d k'.
Proof.
  intros V d k k' v x. induction d as [|[k0 v0] d IH]; simpl; intros G;
    [discriminate |].
  destruct (String.eqb k k0) eqn:E.
  - apply String.eqb_eq in E. subst k0. simpl.
    destruct (String.eqb k' k); reflexivity.
  - simpl. destruct (String.eqb k' k0) eqn:E'.
    + apply String.eqb_eq in E'. subst k0.
      rewrite String.eqb_sym, E. reflexivity.
    + apply IH. exact G.
Qed.

Lemma In_dict_mem : forall (V : Type) (d : list (string * V)) k v,
  In (k, v) d -> dict_mem k d = true.
Proof.
  intros V d k v. unfold dict_mem. induction d as [|[k0 v0] d IH]; simpl;
    intros H; [destruct H |].
  destruct (String.eqb k k0) eqn:E; [reflexivity |].
  destruct H as [H | H]; [|auto].
  inversion H; subst. rewrite String.eqb_refl in E. discriminate.
Qed.

Lemma In_dict_del : forall (V : Type) (d : list (string * V)) k k' v,
  In (k', v) (dict_del k d) <-> In (k', v) d /\ k' <> k.
Proof.
  intros V d k k' v. unfold dict_del. rewrite filter_In. simpl.
  rewrite negb_true_iff, String.eqb_neq. intuition congruence.
Qed.

(** [delete_edge] removes the edges from [u] to [v] and no other. *)
Lemma edge_delete_edge : forall g u v a b w,
  edge (delete_edge g u v) a b w <-> edge g a b w /\ ~ (a = u /\ b = v).
Proof.
  intros g u v a b w. unfold delete_edge, edge.
  destruct (dict_get g u) as [items|] eqn:G.
  - destruct (dict_mem v items) eqn:M.
    + split.
      * intros [its [G' I]]. rewrite (dict_get_set _ _ _ _ _ _ G) in G'.
        destruct (String.eqb a u) eqn:E.
        -- apply String.eqb_eq in E. subst a. inversion G'; subst its.
           apply In_dict_del in I as [I N]. split; [eauto | tauto].
        -- apply String.eqb_neq in E. split; [eauto | tauto].
      * intros [[its [G' I]] N]. rewrite (dict_get_set _ _ _ _ _ _ G).
        destruct (String.eqb a u) eqn:E.
        -- apply String.eqb_eq in E. subst a.
           exists (dict_del v items). split; [reflexivity |].
           apply In_dict_del. rewrite G in G'. inversion G'; subst its.
           split; [exact I |]. intros ->. tauto.
        -- eauto.
    + split; [|intros [H _]; exact H].
      intros [its [G' I]]. split; [eauto |].
      intros [-> ->]. rewrite G in G'. inversion G'; subst its.
      apply In_dict_mem in I. congruence.
  - split; [|intros [H _]; exact H].
    intros [its [G' I]]. split; [eauto |].
    intros [-> ->]. congruence.
Qed.

(** [without_edge] removes the edges between [u] and [v], both ways. *)
Lemma edge_without_edge : forall g u v a b w,
  edge (without_edge g u v) a b w <->
  edge g a b w /\ ~ (a = u /\ b = v) /\ ~ (a = v /\ b = u).
Proof.
  intros g u v a b w. unfold without_edge. rewrite !edge_delete_edge. tauto.
Qed.

Lemma walk_incl : forall g g' s p t c,
  (forall a b w, edge g' a b w -> edge g a b w) ->
  walk g' s p t c -> walk g s p t c.
Proof.
  intros g g' s p t c Sub W. induction W; econstructor; eauto.
Qed.

Lemma weights_nonneg_without_edge : forall g u v,
  weights_nonneg g -> weights_nonneg (without_edge g u v).
Proof.
  intros g u v N a b w E. apply edge_without_edge in E as [E _]. eauto.
Qed.

(** ** The store: copies are fresh, old objects are untouched *)

Lemma preserves_refl : forall s, preserves s s.
Proof. intros s. split; auto. Qed.

Lemma preserves_trans : forall s1 s2 s3,
  preserves s1 s2 -> preserves s2 s3 -> preserves s1 s3.
Proof.
  intros s1 s2 s3 [L1 R1] [L2 R2]. split; [lia |].
  intros l Hl. rewrite R2 by lia. apply R1. exact Hl.
Qed.

Lemma gref_ok_spec : forall s g,
  gref_ok s g = true <-> forall k l, In (k, l) g -> l < length s.
Proof.
  intros s g. unfold gref_ok. rewrite forallb_forall. split.
  - intros H k l I. specialize (H _ I). simpl in H. apply Nat.ltb_lt in H. exact H.
  - intros H [k l] I. apply Nat.ltb_lt. simpl. eauto.
Qed.

Lemma snapshot_preserves : forall s s' g,
  gref_ok s g = true -> preserves s s' -> snapshot s' g = snapshot s g.
Proof.
  intros s s' g Ok [_ R]. rewrite gref_ok_spec in Ok. unfold snapshot.
  apply map_ext_in. intros [k l] I. simpl. f_equal. apply R. eauto.
Qed.

Lemma gref_ok_preserves : forall s s' g,
  gref_ok s g = true -> preserves s s' -> gref_ok s' g = true.
Proof.
  intros s s' g Ok [L _]. rewrite gref_ok_spec in *.
  intros k l I. specialize (Ok k l I). lia.
Qed.

Lemma write_length : forall s l d, length (write s l d) = length s.
Proof.
  induction s as [|x s IH]; intros [|l] d; simpl; auto.
Qed.

Lemma read_write_same : forall s l d, l < length s -> read (write s l d) l = d.
Proof.
  unfold read. induction s as [|x s IH]; intros [|l] d H; simpl in *;
    try lia; auto.
  apply IH. lia.
Qed.

Lemma read_write_other : forall s l l' d,
  l <> l' -> read (write s l d) l' = read s l'.
Proof.
  unfold read. induction s as [|x s IH]; intros [|l] [|l'] d H; simpl;
    try congruence; auto.
Qed.

Lemma copy_graph_spec : forall g s s' copied,
  copy_graph s g = (s', copied) -> gref_ok s g = true ->
  length s' = length s + length g /\ preserves s s' /\
  map snd copied = seq (length s) (length g) /\
  snapshot s' copied = snapshot s g.
Proof.
  induction g as [|[k l] g IH]; intros s s' copied H Ok; simpl in H.
  - inversion H; subst. simpl. repeat split; auto; lia.
  - destruct (copy_graph (s ++ [read s l]) g) as [s1 c1] eqn:C.
    inversion H; subst s' copied. clear H.
    assert (preserves s (s ++ [read s l])) as P0.
    { split; [rewrite length_app; lia |].
      intros l' Hl. unfold read. apply app_nth1. exact Hl. }
    simpl in Ok. apply andb_true_iff in Ok as [Ok1 Ok2].
    apply Nat.ltb_lt in Ok1. simpl in Ok1.
    pose proof (gref_ok_preserves _ _ _ Ok2 P0) as Ok2'.
    destruct (IH _ _ _ C Ok2') as [Len [P [Locs Snap]]].
    rewrite length_app in Len, Locs. simpl in Len, Locs.
    rewrite Nat.add_1_r in Locs.
    split; [simpl; lia |]. split; [exact (preserves_trans _ _ _ P0 P) |].
    split; [simpl; f_equal; exact Locs |].
    simpl. f_equal.
    + f_equal. destruct P as [_ R]. rewrite R by (rewrite length_app; simpl; lia).
      unfold read. rewrite app_nth2 by lia. rewrite Nat.sub_diag. reflexivity.
    + rewrite Snap. apply snapshot_preserves; assumption.
Qed.

Lemma dict_get_snapshot : forall s g k,
  dict_get (snapshot s g) k = option_map (read s) (dict_get g k).
Proof.
  intros s g k. induction g as [|[k0 l] g IH]; simpl; [reflexivity |].
  destruct (String.eqb k k0); [reflexivity | exact IH].
Qed.

Lemma dict_get_In_snd : forall (g : gref) k l,
  dict_get g k = Some l -> In l (map snd g).
Proof.
  induction g as [|[k0 l0] g IH]; simpl; intros k l H; [discriminate |].
  destruct (String.eqb k k0); [inversion H; auto | eauto].
Qed.

(** Writing the object of [k] changes the contents at [k] only, when no
    two nodes share an adjacency dict. *)
Lemma snapshot_write : forall s g k l d,
  NoDup (map snd g) -> (forall l', In l' (map snd g) -> l' < length s) ->
  dict_get g k = Some l ->
  snapshot (write s l d) g = dict_set (snapshot s g) k d.
Proof.
  intros s g k l d. induction g as [|[k0 l0] g IH]; simpl; intros ND V G;
    [discriminate |].
  inversion ND as [|? ? Hnin ND']; subst.
  destruct (String.eqb k k0) eqn:E.
  - inversion G; subst l0. f_equal.
    + f_equal. apply read_write_same. apply V. auto.
    + unfold snapshot. apply map_ext_in. intros [k1 l1] I. simpl. f_equal.
      apply read_write_other. intros ->. apply Hnin.
      apply in_map_iff. exists (k1, l1). auto.
  - f_equal.
    + f_equal. apply read_write_other. intros ->. apply Hnin.
      eapply dict_get_In_snd. exact G.
    + apply IH; auto.
Qed.

Lemma del_edge_length : forall s g u v, length (del_edge s g u v) = length s.
Proof.
  intros s g u v. unfold del_edge. destruct (dict_get g u) as [l|];
    [|reflexivity].
  destruct (dict_mem v (read s l)); [apply write_length | reflexivity].
Qed.

Lemma del_edge_snapshot : forall s g u v,
  NoDup (map snd g) -> (forall l, In l (map snd g) -> l < length s) ->
  snapshot (del_edge s g u v) g = delete_edge (snapshot s g) u v.
Proof.
  intros s g u v ND V. unfold del_edge, delete_edge.
  rewrite dict_get_snapshot. destruct (dict_get g u) as [l|] eqn:G; simpl;
    [|reflexivity].
  destruct (dict_mem v (read s l)); [|reflexivity].
  apply snapshot_write; assumption.
Qed.

Lemma del_edge_old : forall s g u v n l,
  (forall l', In l' (map snd g) -> n <= l') -> l < n ->
  read (del_edge s g u v) l = read s l.
Proof.
  intros s g u v n l Fresh Hl. unfold del_edge.
  destruct (dict_get g u) as [l0|] eqn:G; [|reflexivity].
  destruct (dict_mem v (read s l0)); [|reflexivity].
  apply read_write_other. apply dict_get_In_snd in G.
  specialize (Fresh _ G). lia.
Qed.

(** ** [find_second_shortest_path] on graph contents *)

(** The graph an iteration searches: its copy holds the contents of the
    module's graph without the edge, and the objects of the module's
    graph are as they were. *)
Lemma second_copy_spec : forall s graph s1 gc u v,
  gref_ok s graph = true -> copy_graph s graph = (s1, gc) ->
  snapshot (del_edge (del_edge s1 gc u v) gc v u) gc
    = without_edge (snapshot s graph) u v /\
  preserves s (del_edge (del_edge s1 gc u v) gc v u).
Proof.
  intros s graph s1 gc u v Ok C.
  destruct (copy_graph_spec _ _ _ _ C Ok) as [Len [P [Locs Snap]]].
  assert (NoDup (map snd gc)) as ND by (rewrite Locs; apply seq_NoDup).
  assert (forall l, In l (map snd gc) -> length s <= l < length s1) as Rg.
  { intros l I. rewrite Locs in I. apply in_seq in I. lia. }
  pose proof (del_edge_length s1 gc u v) as L2.
  split.
  - unfold without_edge. rewrite del_edge_snapshot.
    + rewrite del_edge_snapshot.
      * rewrite Snap. reflexivity.
      * exact ND.
      * intros l I. apply Rg in I. lia.
    + exact ND.
    + intros l I. apply Rg in I. lia.
  - destruct P as [PL PR]. split.
    + rewrite del_edge_length. lia.
    + intros l Hl.
      rewrite (del_edge_old _ gc v u (length s) l) by
        (auto; intros l' I; apply Rg in I; lia).
      rewrite (del_edge_old s1 gc u v (length s) l) by
        (auto; intros l' I; apply Rg in I; lia).
      apply PR. exact Hl.
Qed.

Lemma second_body_spec : forall graph start end_ sp s bc bp i s' c' p',
  gref_ok s graph = true ->
  second_body graph start end_ sp (s, bc, bp) i = (s', c', p') ->
  preserves s s' /\
  (c', p') = second_choice (snapshot s graph) start end_ sp (bc, bp) i.
Proof.
  intros graph start end_ sp s bc bp i s' c' p' Ok H.
  unfold second_body in H.
  destruct (copy_graph s graph) as [s1 gc] eqn:C.
  destruct (second_copy_spec _ _ _ _ (nth i sp "") (nth (i + 1) sp "") Ok C)
    as [Snap3 P3].
  rewrite Snap3 in H. unfold second_choice. simpl fst.
  destruct (dijkstra (without_edge (snapshot s graph) (nth i sp "")
                        (nth (i + 1) sp "")) start end_) as [cost path].
  destruct (cost_ltb cost bc && negb (path_eqb path sp));
    inversion H; subst; auto.
Qed.

Lemma second_fold_spec : forall graph start end_ sp idxs s bc bp s' c' p',
  gref_ok s graph = true ->
  fold_left (second_body graph start end_ sp) idxs (s, bc, bp) = (s', c', p') ->
  preserves s s' /\
  (c', p') =
    fold_left (second_choice (snapshot s graph) start end_ sp) idxs (bc, bp).
Proof.
  intros graph start end_ sp idxs.
  induction idxs as [|i idxs IH]; intros s bc bp s' c' p' Ok H;
    cbn [fold_left] in H.
  - inversion H; subst. split; [apply preserves_refl | reflexivity].
  - destruct (second_body graph start end_ sp (s, bc, bp) i)
      as [[s1 c1] p1] eqn:B.
    destruct (second_body_spec _ _ _ _ _ _ _ _ _ _ _ Ok B) as [P1 E1].
    pose proof (gref_ok_preserves _ _ _ Ok P1) as Ok1.
    destruct (IH _ _ _ _ _ _ Ok1 H) as [P2 E2].
    split; [exact (preserves_trans _ _ _ P1 P2) |].
    cbn [fold_left].
    rewrite <- E1, E2, (snapshot_preserves _ _ _ Ok P1). reflexivity.
Qed.

(** [find_second_shortest_path] computes [second_shortest] of the
    graph's contents and leaves every object of the store as it was. *)
Lemma find_second_spec : forall s graph start end_ r s',
  gref_ok s graph = true ->
  find_second_shortest_path s graph start end_ = (r, s') ->
  preserves s s' /\ r = second_shortest (snapshot s graph) start end_.
Proof.
  intros s graph start end_ r s' Ok H.
  unfold find_second_shortest_path, second_shortest in *.
  destruct (dijkstra (snapshot s graph) start end_) as [c0 sp].
  destruct sp as [|x sp].
  - inversion H; subst. split; [apply preserves_refl | reflexivity].
  - destruct (fold_left (second_body graph start end_ (x :: sp))
                (seq 0 (length (x :: sp) - 1)) (s, Infinity, []))
      as [[s1 c1] p1] eqn:F.
    inversion H; subst.
    destruct (second_fold_spec _ _ _ _ _ _ _ _ _ _ _ Ok F) as [P E].
    split; [exact P | exact E].
Qed.

Lemma cost_ltb_Finite : forall a b, cost_ltb a b = true -> exists z, a = Finite z.
Proof. intros [z|] b H; [eauto | discriminate]. Qed.

(** The loop keeps the initial pair or the result of some iteration's
    search, which then has a finite cost and is not the primary path. *)
Lemma second_fold_result : forall g start end_ sp idxs best r,
  fold_left (second_choice g start end_ sp) idxs best = r ->
  r = best \/
  exists i z, In i idxs /\
    r = dijkstra (without_edge g (nth i sp "") (nth (i + 1) sp "")) start end_ /\
    fst r = Finite z /\ snd r <> sp.
Proof.
  intros g start end_ sp idxs.
  induction idxs as [|i idxs IH]; intros best r F; cbn [fold_left] in F;
    [left; symmetry; exact F |].
  destruct (IH _ _ F) as [E | [j [z [I H]]]].
  - rewrite E. unfold second_choice.
    destruct (dijkstra (without_edge g (nth i sp "") (nth (i + 1) sp ""))
                start end_) as [cost path] eqn:D.
    destruct (cost_ltb cost (fst best) && negb (path_eqb path sp)) eqn:T;
      [|left; reflexivity].
    apply andb_true_iff in T as [T1 T2].
    apply cost_ltb_Finite in T1 as [z ->].
    right. exists i, z. repeat split; auto; [left; reflexivity |]. simpl.
    intros ->. apply negb_true_iff in T2.
    assert (path_eqb sp sp = true) by (apply path_eqb_eq; reflexivity).
    congruence.
  - right. exists j, z. split; [right; exact I | exact H].
Qed.

(** ** Nodes without an entry *)

Lemma walk_from_no_entry : forall g s q t d,
  dict_mem s g = false -> walk g s q t d -> t = s.
Proof.
  intros g s q t d M W. induction W as [|p u c v w W IH [items [G _]]];
    [reflexivity |].
  subst u. unfold dict_mem in M. rewrite G in M. discriminate.
Qed.

Lemma walk_target_listed : forall g s q t d,
  walk g s q t d -> t = s \/ listed g t = true.
Proof.
  intros g s q t d W. destruct W as [|p u c v w W [items [G I]]];
    [left; reflexivity |].
  right. unfold listed. apply existsb_exists. exists (u, items). split.
  - apply dict_get_In. exact G.
  - simpl. eapply In_dict_mem. exact I.
Qed.

Lemma second_shortest_sound : forall g start end_ c p,
  weights_nonneg g -> second_shortest g start end_ = (c, p) -> p <> [] ->
  exists z0 p0 z i,
    dijkstra g start end_ = (Finite z0, p0) /\ c = Finite z /\ p <> p0 /\
    (z0 <= z)%Z /\ S i < length p0 /\
    (exists w, edge g (nth i p0 "") (nth (S i) p0 "") w) /\
    walk (without_edge g (nth i p0 "") (nth (S i) p0 "")) start p end_ z /\
    forall q d,
      walk (without_edge g (nth i p0 "") (nth (S i) p0 "")) start q end_ d ->
      (z <= d)%Z.
Proof.
  intros g start end_ c p N H Hp. unfold second_shortest in H.
  destruct (dijkstra g start end_) as [c0 p0] eqn:D0.
  destruct p0 as [|x p0]; [inversion H; subst; congruence |].
  remember (x :: p0) as sp eqn:Esp.
  assert (exists z0, c0 = Finite z0) as [z0 ->].
  { destruct (dijkstra_cases g start end_) as [U | [z0 [p1 F]]].
    - rewrite U in D0. inversion D0; subst. discriminate.
    - rewrite F in D0. inversion D0; subst. eauto. }
  destruct (dijkstra_finite _ _ _ _ _ D0) as [W0 _].
  apply second_fold_result in H as [H | [i [z [I [D [Hc Hs]]]]]];
    [inversion H; subst; congruence |].
  simpl in Hc, Hs. subst c. apply in_seq in I. rewrite Nat.add_1_r in D.
  symmetry in D. destruct (dijkstra_finite _ _ _ _ _ D) as [W _].
  pose proof (weights_nonneg_without_edge g (nth i sp "") (nth (S i) sp "") N)
    as N'.
  exists z0, sp, z, i. repeat split; auto.
  - apply (dijkstra_least _ _ _ _ _ N D0 p z).
    eapply walk_incl; [|exact W].
    intros a b w E. apply edge_without_edge in E as [E _]. exact E.
  - lia.
  - apply walk_shape in W0 as [_ [_ [ws [Len [Ed _]]]]].
    exists (nth i ws 0%Z). apply Ed. lia.
  - exact (dijkstra_least _ _ _ _ _ N' D).
Qed.

Lemma second_choice_unreachable : forall g start end_ sp best i,
  dijkstra (without_edge g (nth i sp "") (nth (i + 1) sp "")) start end_
    = unreachable ->
  second_choice g start end_ sp best i = best.
Proof.
  intros g start end_ sp best i H. unfold second_choice. rewrite H.
  reflexivity.
Qed.

(** ** Termination of [find_second_shortest_path] *)

Lemma total_items_cons : forall k (items : adjacency) g,
  total_items ((k, items) :: g) = length items + total_items g.
Proof. reflexivity. Qed.

Lemma total_items_dict_set : forall g u items d,
  dict_get g u = Some items -> length d <= length items ->
  total_items (dict_set g u d) <= total_items g.
Proof.
  intros g u items d. induction g as [|[k its] g IH]; intros G L;
    simpl in G; [discriminate |].
  simpl. destruct (String.eqb u k).
  - inversion G; subst its. rewrite !total_items_cons. lia.
  - rewrite !total_items_cons. specialize (IH G L). lia.
Qed.

Lemma fuel_bound_delete_edge : forall g u v,
  fuel_bound (delete_edge g u v) <= fuel_bound g.
Proof.
  intros g u v. unfold fuel_bound, delete_edge.
  destruct (dict_get g u) as [items|] eqn:G; [|lia].
  destruct (dict_mem v items); [|lia].
  pose proof (total_items_dict_set g u items (dict_del v items) G
                (filter_length_le _ _)). lia.
Qed.

Lemma fuel_bound_without_edge : forall g u v,
  fuel_bound (without_edge g u v) <= fuel_bound g.
Proof.
  intros g u v. unfold without_edge.
  pose proof (fuel_bound_delete_edge (delete_edge g u v) v u).
  pose proof (fuel_bound_delete_edge g u v). lia.
Qed.

Lemma second_body_fuel_enough : forall fuel graph start end_ sp s bc bp i,
  gref_ok s graph = true -> fuel_bound (snapshot s graph) <= fuel ->
  second_body_fuel fuel graph start end_ sp (Some (s, bc, bp)) i
    = Some (second_body graph start end_ sp (s, bc, bp) i).
Proof.
  intros fuel graph start end_ sp s bc bp i Ok L.
  unfold second_body_fuel, second_body.
  destruct (copy_graph s graph) as [s1 gc] eqn:C.
  destruct (second_copy_spec _ _ _ _ (nth i sp "") (nth (i + 1) sp "") Ok C)
    as [Snap3 _].
  rewrite dijkstra_fuel_enough.
  - destruct (dijkstra _ start end_) as [cost path].
    destruct (cost_ltb cost bc && negb (path_eqb path sp)); reflexivity.
  - rewrite Snap3.
    pose proof (fuel_bound_without_edge (snapshot s graph) (nth i sp "")
                  (nth (i + 1) sp "")). lia.
Qed.

Lemma second_fold_fuel_enough : forall fuel graph start end_ sp idxs s bc bp,
  gref_ok s graph = true -> fuel_bound (snapshot s graph) <= fuel ->
  fold_left (second_body_fuel fuel graph start end_ sp) idxs (Some (s, bc, bp))
    = Some (fold_left (second_body graph start end_ sp) idxs (s, bc, bp)).
Proof.
  intros fuel graph start end_ sp idxs.
  induction idxs as [|i idxs IH]; intros s bc bp Ok L; cbn [fold_left];
    [reflexivity |].
  rewrite second_body_fuel_enough by assumption.
  destruct (second_body graph start end_ sp (s, bc, bp) i)
    as [[s1 c1] p1] eqn:B.
  destruct (second_body_spec _ _ _ _ _ _ _ _ _ _ _ Ok B) as [P1 _].
  apply IH.
  - exact (gref_ok_preserves _ _ _ Ok P1).
  - rewrite (snapshot_preserves _ _ _ Ok P1). exact L.
Qed.

Lemma find_second_fuel_enough : forall fuel s graph start end_,
  gref_ok s graph = true -> fuel_bound (snapshot s graph) <= fuel ->
  find_second_shortest_path_fuel fuel s graph start end_
    = Some (find_second_shortest_path s graph start end_).
Proof.
  intros fuel s graph start end_ Ok L.
  unfold find_second_shortest_path_fuel, find_second_shortest_path.
  rewrite dijkstra_fuel_enough by exact L.
  destruct (dijkstra (snapshot s graph) start end_) as [c0 sp].
  destruct sp as [|x sp]; [reflexivity |].
  rewrite second_fold_fuel_enough by assumption.
  destruct (fold_left _ _ _) as [[s1 c1] p1]. reflexivity.
Qed.

(** ** Sets of nodes closed under the edges *)

Lemma walk_stays_inside : forall g nodes s q t d,
  closed_under_edges g nodes = true -> set_mem s nodes = true ->
  walk g s q t d -> set_mem t nodes = true.
Proof.
  intros g nodes s q t d C S W.
  induction W as [|p u c v w W IH [items [G I]]]; [exact S |].
  unfold closed_under_edges in C. rewrite forallb_forall in C.
  specialize (C _ (dict_get_In _ _ _ _ G)). simpl in C. rewrite IH in C.
  simpl in C. rewrite forallb_forall in C. exact (C _ I).
Qed.

(** Proves that the listed consecutive pairs are edges of a concrete graph. *)
Ltac check_edges :=
  let i := fresh "i" in
  let Hi := fresh "Hi" in
  intros i Hi;
  repeat (destruct i as [|i];
          [apply edge_items_of; vm_compute; tauto |]);
  exfalso; simpl in Hi; lia.

Lemma sample_walk_A_G :
  walk graph "A" ["A"; "B"; "C"; "D"; "G"] "G" 5%Z.
Proof.
  apply (edges_walk graph [1; 2; 1; 1]%Z ["A"; "B"; "C"; "D"; "G"]);
    [reflexivity | check_edges].
Qed.

(** The module's graph is a graph of the kind the theorems below are
    about: its references are valid, its weights are non-negative, and
    its dicts have distinct keys. *)
Lemma module_graph_ok :
  gref_ok graph_store graph_ref = true /\
  nonneg_weights graph = true /\
  dict_wf graph /\ Forall (fun kv => dict_wf (snd kv)) graph.
Proof.
  split; [reflexivity |]. split; [reflexivity |].
  unfold dict_wf. split.
  - simpl. repeat constructor; simpl; intuition discriminate.
  - repeat constructor; simpl; intuition discriminate.
Qed.

(** * Properties of the specification *)

(** C1.  For every graph with non-negative weights and every pair
    [(start, end_)] joined by at least one path, [dijkstra] returns a
    finite cost together with a path of the graph from [start] to [end_]
    at that cost, and no path from [start] to [end_] costs less. *)
Theorem dijkstra_shortest : forall g start end_,
  nonneg_weights g = true ->
  (exists q d, walk g start q end_ d) ->
  exists c p,
    dijkstra g start end_ = (Finite c, p) /\
    walk g start p end_ c /\
    forall q d, walk g start q end_ d -> (c <= d)%Z.
Proof.
  intros g start end_ N [q [d W]].
  apply nonneg_weights_sound in N.
  destruct (dijkstra_reaches _ _ _ _ _ N W) as [c [p D]].
  exists c, p. split; [exact D |]. split.
  - apply (dijkstra_finite _ _ _ _ _ D).
  - exact (dijkstra_least _ _ _ _ _ N D).
Qed.

Lemma dijkstra_shortest_witness :
  exists c p,
    dijkstra graph "A" "G" = (Finite c, p) /\
    walk graph "A" p "G" c /\
    forall q d, walk graph "A" q "G" d -> (c <= d)%Z.
Proof.
  apply (dijkstra_shortest graph "A" "G").
  - vm_compute. reflexivity.
  - exists ["A"; "B"; "C"; "D"; "G"], 5%Z. exact sample_walk_A_G.
Defined.

(** C3 as the code has it: on the module's graph, [dijkstra(graph, 'A',
    'G')] returns cost 5 and the path [A, B, C, D, G]. *)
Theorem sample_A_G :
  dijkstra graph "A" "G" = (Finite 5, ["A"; "B"; "C"; "D"; "G"]).
Proof. vm_compute. reflexivity. Qed.

(** C3 as stated fails: the cost returned for [A] to [G] is not 6. *)
Lemma sample_A_G_not_6 :
  dijkstra graph "A" "G" <> (Finite 6, ["A"; "B"; "C"; "D"; "G"]).
Proof. vm_compute. discriminate. Qed.

(** C4 as the code has it: when [start] differs from [end_], [dijkstra]
    returns the unreachable result if [start] has no entry in the graph,
    and also if [end_] occurs nowhere in the graph (no entry, and no
    adjacency dict lists it). *)
Theorem dijkstra_unknown_node : forall g start end_,
  start <> end_ ->
  (dict_mem start g = false -> dijkstra g start end_ = (Infinity, [])) /\
  (absent g end_ = true -> dijkstra g start end_ = (Infinity, [])).
Proof.
  intros g start end_ Ne. split; intros H; apply dijkstra_no_walk;
    intros q d W.
  - apply (walk_from_no_entry _ _ _ _ _ H) in W. congruence.
  - apply walk_target_listed in W as [E | L]; [congruence |].
    unfold absent in H. rewrite L in H. rewrite andb_false_r in H.
    discriminate.
Qed.

Lemma dijkstra_unknown_node_witness :
  dijkstra graph "Z" "A" = (Infinity, []) /\
  dijkstra graph "A" "Z" = (Infinity, []).
Proof.
  split.
  - destruct (dijkstra_unknown_node graph "Z" "A") as [H _];
      [discriminate | apply H; vm_compute; reflexivity].
  - destruct (dijkstra_unknown_node graph "A" "Z") as [_ H];
      [discriminate | apply H; vm_compute; reflexivity].
Defined.

(** C4 as stated fails: [Z] has no entry in the module's graph, and the
    call with [Z] as both start and end returns cost 0 and the path
    [Z], not the unreachable result. *)
Lemma unknown_node_reaches_itself :
  dict_mem "Z" graph = false /\
  dijkstra graph "Z" "Z" = (Finite 0, ["Z"]) /\
  dijkstra graph "Z" "Z" <> (Infinity, []).
Proof.
  split; [vm_compute; reflexivity |].
  split; [vm_compute; reflexivity | vm_compute; discriminate].
Qed.

(** C6.  For every graph and every pair [(start, end_)] that no path
    joins, [dijkstra] returns infinite cost with the empty path, from a
    state in which the heap is empty and [end_] was never extracted. *)
Theorem dijkstra_unreachable : forall g start end_,
  (forall q d, ~ walk g start q end_ d) ->
  dijkstra g start end_ = (Infinity, []) /\
  exists visited,
    reachable g start end_ ([], visited) /\ ~ In end_ visited /\
    loop_body g end_ ([], visited) = Return (Infinity, []).
Proof.
  intros g start end_ H.
  pose proof (dijkstra_no_walk _ _ _ H) as U. split; [exact U |].
  destruct (dijkstra_returns g start end_) as [[heap visited] [R B]].
  rewrite U in B.
  destruct (loop_body_Return _ _ _ _ _ B) as [[E _] | [c [p [rest [_ F]]]]];
    [|discriminate].
  subst heap. exists visited. split; [exact R |]. split; [|exact B].
  destruct (reachable_inv _ _ _ _ R) as [[_ [NE _]] _]. exact NE.
Qed.

Lemma dijkstra_unreachable_witness :
  dijkstra two_islands "A" "D" = (Infinity, []) /\
  exists visited,
    reachable two_islands "A" "D" ([], visited) /\ ~ In "D" visited /\
    loop_body two_islands "D" ([], visited) = Return (Infinity, []).
Proof.
  apply (dijkstra_unreachable two_islands "A" "D").
  intros q d W.
  apply (walk_stays_inside two_islands ["A"; "B"]) in W;
    [vm_compute in W; discriminate W | vm_compute; reflexivity
    | vm_compute; reflexivity].
Defined.

(** C7.  For every graph and every node identifier [s], with or without
    an entry in the graph, [dijkstra(g, s, s)] returns cost 0 and the
    path [[s]]: the first iteration extracts the seed item and returns. *)
Theorem dijkstra_same_node : forall g s,
  loop_body g s (init_state s) = Return (Finite 0, [s]) /\
  dijkstra_fuel 1 g s s = Some (Finite 0, [s]) /\
  dijkstra g s s = (Finite 0, [s]).
Proof.
  intros g s.
  assert (loop_body g s (init_state s) = Return (Finite 0, [s])) as B.
  { unfold loop_body, init_state. simpl. rewrite String.eqb_refl. reflexivity. }
  split; [exact B |]. split.
  - unfold dijkstra_fuel. rewrite dijkstra_loop_S, B. reflexivity.
  - unfold dijkstra, dijkstra_fuel, fuel_bound.
    change (2 + total_items g) with (S (S (total_items g))).
    rewrite dijkstra_loop_S, B. reflexivity.
Qed.

(** C10.  Every finite-cost result [(c, p)] of [dijkstra] is a simple
    path: [p] begins with [start], ends with [end_], repeats no node,
    every consecutive pair of [p] is an edge of the graph, and [c] is the
    sum of the weights of those edges. *)
Theorem dijkstra_path_well_formed : forall g start end_ c p,
  dijkstra g start end_ = (Finite c, p) ->
  hd_error p = Some start /\ last p "" = end_ /\ NoDup p /\
  exists ws,
    length p = S (length ws) /\
    (forall i, i < length ws ->
       edge g (nth i p "") (nth (S i) p "") (nth i ws 0%Z)) /\
    c = sum_weights ws.
Proof.
  intros g start end_ c p D.
  destruct (dijkstra_finite _ _ _ _ _ D) as [W ND].
  destruct (walk_shape _ _ _ _ _ W) as [Hh [Hl Hw]]. auto.
Qed.

Lemma dijkstra_path_well_formed_witness :
  hd_error ["A"; "B"; "C"; "D"; "G"] = Some "A" /\
  last ["A"; "B"; "C"; "D"; "G"] "" = "G" /\
  NoDup ["A"; "B"; "C"; "D"; "G"] /\
  exists ws,
    length ["A"; "B"; "C"; "D"; "G"] = S (length ws) /\
    (forall i, i < length ws ->
       edge graph (nth i ["A"; "B"; "C"; "D"; "G"] "")
         (nth (S i) ["A"; "B"; "C"; "D"; "G"] "") (nth i ws 0%Z)) /\
    5%Z = sum_weights ws.
Proof.
  apply (dijkstra_path_well_formed graph "A" "G" 5).
  vm_compute. reflexivity.
Defined.

(** C2.  On a graph with non-negative weights, whenever
    [find_second_shortest_path] returns a non-empty path [p], [p] differs
    from the path [p0] that [dijkstra] returns on the graph, its cost is
    finite and at least the shortest cost, and for some consecutive pair
    [(u, v)] of [p0], an edge of the graph, [p] is a minimum-cost path from
    [start] to [end_] in the graph without the edges between [u] and [v]. *)
Theorem second_path_single_edge_detour : forall s graph start end_ c p s',
  gref_ok s graph = true ->
  nonneg_weights (snapshot s graph) = true ->
  find_second_shortest_path s graph start end_ = ((c, p), s') ->
  p <> [] ->
  exists z0 p0 z i,
    dijkstra (snapshot s graph) start end_ = (Finite z0, p0) /\
    c = Finite z /\ p <> p0 /\ (z0 <= z)%Z /\ S i < length p0 /\
    (exists w, edge (snapshot s graph) (nth i p0 "") (nth (S i) p0 "") w) /\
    (forall a b w,
       edge (without_edge (snapshot s graph) (nth i p0 "") (nth (S i) p0 ""))
         a b w <->
       edge (snapshot s graph) a b w /\
       ~ (a = nth i p0 "" /\ b = nth (S i) p0 "") /\
       ~ (a = nth (S i) p0 "" /\ b = nth i p0 "")) /\
    walk (without_edge (snapshot s graph) (nth i p0 "") (nth (S i) p0 ""))
      start p end_ z /\
    forall q d,
      walk (without_edge (snapshot s graph) (nth i p0 "") (nth (S i) p0 ""))
        start q end_ d ->
      (z <= d)%Z.
Proof.
  intros s graph start end_ c p s' Ok N H Hp.
  apply nonneg_weights_sound in N.
  destruct (find_second_spec _ _ _ _ _ _ Ok H) as [_ E]. symmetry in E.
  destruct (second_shortest_sound _ _ _ _ _ N E Hp)
    as [z0 [p0 [z [i [D [Hc [Hne [Hle [Hi [He [W L]]]]]]]]]]].
  exists z0, p0, z, i.
  split; [exact D |]. split; [exact Hc |]. split; [exact Hne |].
  split; [exact Hle |]. split; [exact Hi |]. split; [exact He |].
  split; [intros a b w; apply edge_without_edge |].
  split; [exact W | exact L].
Qed.

Lemma second_path_single_edge_detour_witness :
  exists z0 p0 z i,
    dijkstra (snapshot graph_store graph_ref) "A" "G" = (Finite z0, p0) /\
    Finite 6 = Finite z /\ ["A"; "C"; "D"; "G"] <> p0 /\ (z0 <= z)%Z /\
    S i < length p0 /\
    (exists w,
       edge (snapshot graph_store graph_ref) (nth i p0 "") (nth (S i) p0 "") w) /\
    (forall a b w,
       edge (without_edge (snapshot graph_store graph_ref)
               (nth i p0 "") (nth (S i) p0 "")) a b w <->
       edge (snapshot graph_store graph_ref) a b w /\
       ~ (a = nth i p0 "" /\ b = nth (S i) p0 "") /\
       ~ (a = nth (S i) p0 "" /\ b = nth i p0 "")) /\
    walk (without_edge (snapshot graph_store graph_ref)
            (nth i p0 "") (nth (S i) p0 ""))
      "A" ["A"; "C"; "D"; "G"] "G" z /\
    forall q d,
      walk (without_edge (snapshot graph_store graph_ref)
              (nth i p0 "") (nth (S i) p0 "")) "A" q "G" d ->
      (z <= d)%Z.
Proof.
  apply (second_path_single_edge_detour graph_store graph_ref "A" "G"
           (Finite 6) ["A"; "C"; "D"; "G"]
           (snd (find_second_shortest_path graph_store graph_ref "A" "G"))).
  - vm_compute. reflexivity.
  - vm_compute. reflexivity.
  - vm_compute. reflexivity.
  - discriminate.
Defined.

(** C5.  If [dijkstra] returns the empty path on the module's graph,
    [find_second_shortest_path] returns infinite cost and the empty path
    without touching the store; and an iteration of its loop whose edge
    removal leaves no path from [start] to [end_] keeps
    [second_best_cost] and [second_best_path] as they were, an infinite
    cost being less than no cost. *)
Theorem second_unreachable :
  (forall s graph start end_,
     snd (dijkstra (snapshot s graph) start end_) = [] ->
     find_second_shortest_path s graph start end_ = ((Infinity, []), s)) /\
  (forall s graph start end_ sp best_cost best_path i,
     gref_ok s graph = true ->
     (forall q d,
        ~ walk (without_edge (snapshot s graph)
                  (nth i sp "") (nth (i + 1) sp "")) start q end_ d) ->
     exists s',
       second_body graph start end_ sp (s, best_cost, best_path) i
         = (s', best_cost, best_path)) /\
  (forall best_cost, cost_ltb Infinity best_cost = false).
Proof.
  split; [|split].
  - intros s graph start end_ H. unfold find_second_shortest_path.
    destruct (dijkstra (snapshot s graph) start end_) as [c0 sp].
    simpl in H. subst sp. reflexivity.
  - intros s graph start end_ sp bc bp i Ok H.
    destruct (second_body graph start end_ sp (s, bc, bp) i)
      as [[s' c'] p'] eqn:B.
    destruct (second_body_spec _ _ _ _ _ _ _ _ _ _ _ Ok B) as [_ E].
    rewrite second_choice_unreachable in E by (apply dijkstra_no_walk; exact H).
    inversion E; subst. exists s'. reflexivity.
  - reflexivity.
Qed.

Lemma second_unreachable_witness :
  find_second_shortest_path graph_store graph_ref "A" "Z"
    = ((Infinity, []), graph_store) /\
  exists s',
    second_body bridge_ref "A" "B" ["A"; "B"] (bridge_store, Infinity, []) 0
      = (s', Infinity, []).
Proof.
  destruct second_unreachable as [H1 [H2 _]]. split.
  - apply (H1 graph_store graph_ref "A" "Z"). vm_compute. reflexivity.
  - apply (H2 bridge_store bridge_ref "A" "B" ["A"; "B"] Infinity [] 0).
    + vm_compute. reflexivity.
    + intros q d W.
      apply (walk_stays_inside _ ["A"]) in W;
        [vm_compute in W; discriminate W | vm_compute; reflexivity
        | vm_compute; reflexivity].
Defined.

(** C8.  [find_second_shortest_path] leaves the module's graph as it
    found it: every dict object that existed before the call has the same
    contents after it, in particular the adjacency dict of every node, so
    [dijkstra] and [find_second_shortest_path] return the same results
    when called again.  ([dijkstra] itself only reads the graph.) *)
Theorem graph_not_mutated : forall s graph start end_ r s',
  gref_ok s graph = true ->
  find_second_shortest_path s graph start end_ = (r, s') ->
  (forall l, l < length s -> read s' l = read s l) /\
  (forall n l, In (n, l) graph -> read s' l = read s l) /\
  snapshot s' graph = snapshot s graph /\
  dijkstra (snapshot s' graph) start end_
    = dijkstra (snapshot s graph) start end_ /\
  fst (find_second_shortest_path s' graph start end_) = r.
Proof.
  intros s graph start end_ r s' Ok H.
  destruct (find_second_spec _ _ _ _ _ _ Ok H) as [P E].
  pose proof (snapshot_preserves _ _ _ Ok P) as Snap.
  pose proof (gref_ok_preserves _ _ _ Ok P) as Ok'.
  destruct P as [PL PR].
  split; [exact PR |]. split.
  - intros n l I. apply PR. rewrite gref_ok_spec in Ok. eauto.
  - split; [exact Snap |]. split; [rewrite Snap; reflexivity |].
    destruct (find_second_shortest_path s' graph start end_) as [r2 s2] eqn:H2.
    destruct (find_second_spec _ _ _ _ _ _ Ok' H2) as [_ E2].
    simpl. rewrite E2, Snap, <- E. reflexivity.
Qed.

Lemma graph_not_mutated_witness :
  (forall l, l < length graph_store ->
     read (snd (find_second_shortest_path graph_store graph_ref "A" "G")) l
       = read graph_store l) /\
  (forall n l, In (n, l) graph_ref ->
     read (snd (find_second_shortest_path graph_store graph_ref "A" "G")) l
       = read graph_store l) /\
  snapshot (snd (find_second_shortest_path graph_store graph_ref "A" "G"))
    graph_ref = snapshot graph_store graph_ref /\
  dijkstra
    (snapshot (snd (find_second_shortest_path graph_store graph_ref "A" "G"))
       graph_ref) "A" "G"
    = dijkstra (snapshot graph_store graph_ref) "A" "G" /\
  fst (find_second_shortest_path
         (snd (find_second_shortest_path graph_store graph_ref "A" "G"))
         graph_ref "A" "G")
    = (Finite 6, ["A"; "C"; "D"; "G"]).
Proof.
  apply (graph_not_mutated graph_store graph_ref "A" "G"
           (Finite 6, ["A"; "C"; "D"; "G"])
           (snd (find_second_shortest_path graph_store graph_ref "A" "G"))).
  - vm_compute. reflexivity.
  - vm_compute. reflexivity.
Defined.

(** C9.  [dijkstra] terminates on every graph: no node enters the visited
    set twice, an iteration either drops a heap item or visits a new node,
    every iteration decreases [measure], and [fuel_bound g] iterations
    always suffice.  [find_second_shortest_path], which calls [dijkstra]
    once and then once per consecutive pair of the primary path, returns
    as soon as each call is given that many iterations. *)
Theorem dijkstra_terminates :
  (forall g start end_ st, reachable g start end_ st -> NoDup (snd st)) /\
  (forall g end_ heap visited heap' visited',
     loop_body g end_ (heap, visited) = Next (heap', visited') ->
     measure g (heap', visited') < measure g (heap, visited) /\
     ((visited' = visited /\ length heap = S (length heap')) \/
      (exists n, ~ In n visited /\ visited' = n :: visited))) /\
  (forall g start end_ fuel,
     fuel_bound g <= fuel ->
     dijkstra_fuel fuel g start end_ = Some (dijkstra g start end_)) /\
  (forall s graph start end_ fuel,
     gref_ok s graph = true ->
     fuel_bound (snapshot s graph) <= fuel ->
     find_second_shortest_path_fuel fuel s graph start end_
       = Some (find_second_shortest_path s graph start end_)).
Proof.
  split; [|split; [|split]].
  - intros g start end_ st R.
    destruct (reachable_inv _ _ _ _ R) as [[ND _] _]. exact ND.
  - intros g end_ heap visited heap' visited' B.
    split; [exact (measure_decreases _ _ _ _ B) |].
    apply loop_body_Next in B
      as [c [n [p [rest [P [_ [[Hin E] | [Hnin E]]]]]]]]; inversion E; subst.
    + left. split; [reflexivity | exact (heappop_length _ _ _ P)].
    + right. exists n. auto.
  - intros g start end_ fuel L. apply dijkstra_fuel_enough. exact L.
  - intros s graph start end_ fuel Ok L.
    apply find_second_fuel_enough; assumption.
Qed.

Lemma dijkstra_terminates_witness :
  NoDup (snd (init_state "A")) /\
  (measure graph ([(1, "B", ["A"; "B"]); (4, "C", ["A"; "C"]);
                   (2, "E", ["A"; "E"])]%Z, ["A"])
     < measure graph (init_state "A") /\
   ((["A"] = [] /\ length (fst (init_state "A")) = S 3) \/
    (exists n, ~ In n [] /\ ["A"] = [n]))) /\
  dijkstra_fuel 40 graph "A" "G" = Some (dijkstra graph "A" "G") /\
  find_second_shortest_path_fuel 40 graph_store graph_ref "A" "G"
    = Some (find_second_shortest_path graph_store graph_ref "A" "G").
Proof.
  destruct dijkstra_terminates as [H1 [H2 [H3 H4]]].
  split; [|split; [|split]].
  - apply (H1 graph "A" "G"). apply reach_init.
  - apply (H2 graph "G" [(0%Z, "A", ["A"])] []). vm_compute. reflexivity.
  - apply (H3 graph "A" "G" 40). vm_compute. lia.
  - apply (H4 graph_store graph_ref "A" "G" 40).
    + vm_compute. reflexivity.
    + vm_compute. lia.
Defined.

(** * Further properties of the search functions *)

(** ** Walks, end to end *)

Lemma walk_nonempty : forall g s p t c, walk g s p t c -> p <> [].
Proof.
  intros g s p t c W. destruct W as [|p u c v w W E]; [discriminate |].
  intros X. apply app_eq_nil in X as [_ X]. discriminate.
Qed.

Lemma walk_nonneg : forall g s p t c,
  weights_nonneg g -> walk g s p t c -> (0 <= c)%Z.
Proof.
  intros g s p t c N W. induction W as [|p u c v w W IH E]; [lia |].
  pose proof (N _ _ _ E). lia.
Qed.

(** A walk can be entered by an edge into its start. *)
Lemma walk_cons : forall g u v w q t c,
  edge g u v w -> walk g v q t c -> walk g u (u :: q) t (w + c)%Z.
Proof.
  intros g u v w q t c E W. induction W as [|p x c y z W IH E'].
  - replace (w + 0)%Z with (0 + w)%Z by lia.
    apply (walk_step g u [u] u 0%Z v w); [constructor | exact E].
  - replace (w + (c + z))%Z with ((w + c) + z)%Z by lia.
    apply (walk_step g u (u :: p) x (w + c)%Z y z); assumption.
Qed.

(** In an undirected graph a walk can be walked backwards. *)
Lemma walk_rev : forall g s p t c,
  symmetric g -> walk g s p t c -> walk g t (rev p) s c.
Proof.
  intros g s p t c Sym W. induction W as [|p u c v w W IH E].
  - constructor.
  - rewrite rev_app_distr. simpl.
    replace (c + w)%Z with (w + c)%Z by lia.
    apply walk_cons with (v := u); [apply Sym; exact E | exact IH].
Qed.

Lemma symmetricb_sound : forall g, symmetricb g = true -> symmetric g.
Proof.
  intros g H u v w [items [G I]]. unfold symmetricb in H.
  rewrite forallb_forall in H.
  specialize (H _ (dict_get_In _ _ _ _ G)). simpl in H.
  rewrite forallb_forall in H. specialize (H _ I). simpl in H.
  apply existsb_exists in H as [[u' w'] [Hin Heq]]. simpl in Heq.
  apply andb_true_iff in Heq as [E1 E2].
  apply String.eqb_eq in E1. apply Z.eqb_eq in E2. subst.
  apply edge_items_of. exact Hin.
Qed.

(** A walk never passes a pair of consecutive nodes that is no edge. *)
Lemma walk_uses_edges : forall g s p t c i,
  walk g s p t c -> S i < length p ->
  exists w, edge g (nth i p "") (nth (S i) p "") w.
Proof.
  intros g s p t c i W Hi.
  apply walk_shape in W as [_ [_ [ws [Len [Ed _]]]]].
  exists (nth i ws 0%Z). apply Ed. lia.
Qed.

(** ** Results of [dijkstra] *)

Lemma dijkstra_self : forall g s, dijkstra g s s = (Finite 0, [s]).
Proof.
  intros g s. unfold dijkstra, dijkstra_fuel, fuel_bound.
  change (2 + total_items g) with (S (S (total_items g))).
  rewrite dijkstra_loop_S. unfold loop_body, init_state. simpl.
  rewrite String.eqb_refl. reflexivity.
Qed.

Lemma dijkstra_shape : forall g s e c p,
  dijkstra g s e = (c, p) ->
  (c = Infinity /\ p = []) \/ (exists z, c = Finite z /\ p <> []).
Proof.
  intros g s e c p D. destruct (dijkstra_cases g s e) as [U | [z [p' F]]].
  - rewrite U in D. inversion D. auto.
  - rewrite F in D. inversion D; subst. right. exists z. split; [reflexivity |].
    apply dijkstra_finite in F as [W _]. exact (walk_nonempty _ _ _ _ _ W).
Qed.

(** The search of an iteration never returns the primary path: the
    primary path passes the edge the iteration has deleted. *)
Lemma candidate_differs : forall g start end_ c0 p0 i,
  dijkstra g start end_ = (c0, p0) -> S i < length p0 ->
  snd (dijkstra (without_edge g (nth i p0 "") (nth (S i) p0 "")) start end_)
    <> p0.
Proof.
  intros g start end_ c0 p0 i D Hi.
  destruct (dijkstra (without_edge g (nth i p0 "") (nth (S i) p0 ""))
              start end_) as [c p] eqn:Di.
  simpl. intros ->.
  destruct (dijkstra_shape _ _ _ _ _ Di) as [[_ E] | [z [-> _]]].
  - subst p0. simpl in Hi. lia.
  - apply dijkstra_finite in Di as [W _].
    destruct (walk_uses_edges _ _ _ _ _ i W Hi) as [w E].
    apply edge_without_edge in E as [_ [N _]]. apply N. auto.
Qed.

(** ** The order on costs *)

Lemma cost_leb_refl : forall a, cost_leb a a = true.
Proof.
  intros [z|]; unfold cost_leb; simpl; [|reflexivity].
  rewrite Z.ltb_irrefl. reflexivity.
Qed.

Lemma cost_leb_trans : forall a b c,
  cost_leb a b = true -> cost_leb b c = true -> cost_leb a c = true.
Proof.
  intros [x|] [y|] [z|]; unfold cost_leb; simpl; try congruence.
  rewrite !negb_true_iff, !Z.ltb_ge. lia.
Qed.

Lemma cost_leb_antisym : forall a b,
  cost_leb a b = true -> cost_leb b a = true -> a = b.
Proof.
  intros [x|] [y|]; unfold cost_leb; simpl; try congruence.
  rewrite !negb_true_iff, !Z.ltb_ge. intros H1 H2. f_equal. lia.
Qed.

Lemma cost_ltb_leb : forall a b, cost_ltb a b = true -> cost_leb a b = true.
Proof.
  intros [x|] [y|]; unfold cost_leb; simpl; try congruence.
  rewrite negb_true_iff, Z.ltb_lt, Z.ltb_ge. lia.
Qed.

Lemma cost_leb_Finite : forall a z,
  cost_leb a (Finite z) = true -> exists x, a = Finite x /\ (x <= z)%Z.
Proof.
  intros [x|] z; unfold cost_leb; simpl; [|discriminate].
  rewrite negb_true_iff, Z.ltb_ge. eauto.
Qed.

(** If every path of the second search has a path of the first search
    at the same cost, the first search returns no greater a cost. *)
Lemma dijkstra_cost_transfer : forall g1 a1 b1 g2 a2 b2,
  weights_nonneg g1 ->
  (forall q d, walk g2 a2 q b2 d -> exists q', walk g1 a1 q' b1 d) ->
  cost_leb (fst (dijkstra g1 a1 b1)) (fst (dijkstra g2 a2 b2)) = true.
Proof.
  intros g1 a1 b1 g2 a2 b2 N T.
  destruct (dijkstra_cases g2 a2 b2) as [U | [z2 [p2 F2]]].
  - rewrite U. unfold cost_leb. reflexivity.
  - rewrite F2. simpl. destruct (dijkstra_finite _ _ _ _ _ F2) as [W2 _].
    destruct (T _ _ W2) as [q' W1].
    destruct (dijkstra_reaches _ _ _ _ _ N W1) as [z1 [p1 F1]].
    rewrite F1. simpl. pose proof (dijkstra_least _ _ _ _ _ N F1 _ _ W1).
    unfold cost_leb. simpl. rewrite negb_true_iff, Z.ltb_ge. lia.
Qed.

(** ** The loop of [find_second_shortest_path] *)

Lemma second_fold_best : forall g start end_ sp idxs best r,
  fold_left (second_choice g start end_ sp) idxs best = r ->
  cost_leb (fst r) (fst best) = true /\
  forall i, In i idxs ->
    snd (dijkstra (without_edge g (nth i sp "") (nth (i + 1) sp ""))
           start end_) <> sp ->
    cost_leb (fst r)
      (fst (dijkstra (without_edge g (nth i sp "") (nth (i + 1) sp ""))
              start end_)) = true.
Proof.
  intros g start end_ sp idxs.
  induction idxs as [|i idxs IH]; intros best r F; cbn [fold_left] in F.
  - subst r. split; [apply cost_leb_refl | intros i []].
  - destruct (IH _ _ F) as [L1 L2].
    assert (cost_leb (fst (second_choice g start end_ sp best i)) (fst best)
              = true /\
            (snd (dijkstra (without_edge g (nth i sp "") (nth (i + 1) sp ""))
                    start end_) <> sp ->
             cost_leb (fst (second_choice g start end_ sp best i))
               (fst (dijkstra (without_edge g (nth i sp "")
                                 (nth (i + 1) sp "")) start end_)) = true))
      as [S1 S2].
    { unfold second_choice.
      destruct (dijkstra (without_edge g (nth i sp "") (nth (i + 1) sp ""))
                  start end_) as [cost path].
      simpl fst. simpl snd.
      destruct (cost_ltb cost (fst best)) eqn:T1; simpl.
      - destruct (path_eqb path sp) eqn:T2; simpl.
        + split; [apply cost_leb_refl |].
          apply path_eqb_eq in T2. congruence.
        + split; [apply cost_ltb_leb; exact T1 | intros _; apply cost_leb_refl].
      - split; [apply cost_leb_refl |].
        intros _. unfold cost_leb. rewrite T1. reflexivity. }
    split; [exact (cost_leb_trans _ _ _ L1 S1) |].
    intros j [<- | Hj] Hne.
    + exact (cost_leb_trans _ _ _ L1 (S2 Hne)).
    + exact (L2 j Hj Hne).
Qed.

Lemma copy_graph_length : forall g s,
  length (fst (copy_graph s g)) = length s + length g.
Proof.
  induction g as [|[k l] g IH]; intros s; simpl; [lia |].
  specialize (IH (s ++ [read s l])).
  destruct (copy_graph (s ++ [read s l]) g) as [s1 c1].
  simpl in *. rewrite IH, length_app. simpl. lia.
Qed.

Lemma copy_graph_keys : forall g s,
  map fst (snd (copy_graph s g)) = map fst g.
Proof.
  induction g as [|[k l] g IH]; intros s; simpl; [reflexivity |].
  specialize (IH (s ++ [read s l])).
  destruct (copy_graph (s ++ [read s l]) g) as [s1 c1].
  simpl in *. rewrite IH. reflexivity.
Qed.

Lemma second_body_length : forall graph start end_ sp st i,
  length (fst (fst (second_body graph start end_ sp st i)))
    = length (fst (fst st)) + length graph.
Proof.
  intros graph start end_ sp [[s bc] bp] i. unfold second_body.
  pose proof (copy_graph_length graph s) as L.
  destruct (copy_graph s graph) as [s1 gc]. simpl in L.
  destruct (dijkstra _ start end_) as [cost path].
  destruct (cost_ltb cost bc && negb (path_eqb path sp)); simpl;
    rewrite !del_edge_length; exact L.
Qed.

Lemma second_fold_length : forall graph start end_ sp idxs st,
  length (fst (fst (fold_left (second_body graph start end_ sp) idxs st)))
    = length (fst (fst st)) + length idxs * length graph.
Proof.
  intros graph start end_ sp idxs.
  induction idxs as [|i idxs IH]; intros st; cbn [fold_left]; [simpl; lia |].
  rewrite IH, second_body_length. simpl. lia.
Qed.

Lemma second_shortest_walk : forall g start end_ c p,
  second_shortest g start end_ = (c, p) -> p <> [] ->
  exists z i,
    c = Finite z /\ S i < length (snd (dijkstra g start end_)) /\
    NoDup p /\
    walk (without_edge g (nth i (snd (dijkstra g start end_)) "")
            (nth (S i) (snd (dijkstra g start end_)) "")) start p end_ z.
Proof.
  intros g start end_ c p H Hp. unfold second_shortest in H.
  destruct (dijkstra g start end_) as [c0 p0] eqn:D0. simpl.
  destruct p0 as [|x p0]; [inversion H; subst; congruence |].
  apply second_fold_result in H as [H | [i [z [I [D [Hc _]]]]]];
    [inversion H; subst; congruence |].
  simpl in Hc. subst c. apply in_seq in I. rewrite Nat.add_1_r in D.
  symmetry in D. destruct (dijkstra_finite _ _ _ _ _ D) as [W ND].
  exists z, i. repeat split; auto. lia.
Qed.

Lemma second_shortest_shape : forall g start end_ c p,
  second_shortest g start end_ = (c, p) ->
  (c = Infinity /\ p = []) \/ (exists z, c = Finite z /\ p <> []).
Proof.
  intros g start end_ c p H. destruct p as [|x p].
  - left. split; [|reflexivity]. unfold second_shortest in H.
    destruct (dijkstra g start end_) as [c0 p0].
    destruct p0 as [|y p0]; [inversion H; reflexivity |].
    apply second_fold_result in H as [H | [i [z [_ [D [Hc _]]]]]];
      [inversion H; reflexivity |].
    symmetry in D. simpl in Hc. subst c.
    apply dijkstra_finite in D as [W _].
    destruct (walk_nonempty _ _ _ _ _ W eq_refl).
  - right. destruct (second_shortest_walk _ _ _ _ _ H) as [z [_ [-> _]]];
      [discriminate |].
    exists z. split; [reflexivity | discriminate].
Qed.

(** ** Properties *)

(** X1.  On an undirected graph with non-negative weights the cost
    [dijkstra] returns from [a] to [b] is the cost it returns from [b] to
    [a] (both infinite, or the same number). *)
Theorem dijkstra_cost_symmetric : forall g a b,
  symmetricb g = true -> nonneg_weights g = true ->
  fst (dijkstra g a b) = fst (dijkstra g b a).
Proof.
  intros g a b Sym N.
  apply symmetricb_sound in Sym. apply nonneg_weights_sound in N.
  apply cost_leb_antisym; apply dijkstra_cost_transfer; auto;
    intros q d W; exists (rev q); apply walk_rev; assumption.
Qed.

Lemma dijkstra_cost_symmetric_witness :
  fst (dijkstra graph "A" "J") = fst (dijkstra graph "J" "A").
Proof.
  apply (dijkstra_cost_symmetric graph "A" "J").
  - vm_compute. reflexivity.
  - vm_compute. reflexivity.
Defined.

(** X2.  With non-negative weights the cost [dijkstra] returns depends
    on the edges of the graph only: two graphs with the same edges, in
    whatever order their dicts list them, give the same cost. *)
Theorem dijkstra_cost_of_edges : forall g g' a b,
  nonneg_weights g = true ->
  (forall u v w, edge g u v w <-> edge g' u v w) ->
  fst (dijkstra g a b) = fst (dijkstra g' a b).
Proof.
  intros g g' a b N E. apply nonneg_weights_sound in N.
  assert (weights_nonneg g') as N'.
  { intros u v w H. apply E in H. exact (N _ _ _ H). }
  apply cost_leb_antisym; apply dijkstra_cost_transfer; auto;
    intros q d W; exists q.
  - apply (walk_incl g g' _ _ _ _ (fun x y w => proj2 (E x y w)) W).
  - apply (walk_incl g' g _ _ _ _ (fun x y w => proj1 (E x y w)) W).
Qed.

Lemma dijkstra_cost_of_edges_witness :
  fst (dijkstra triangle "A" "C") = fst (dijkstra triangle_reordered "A" "C").
Proof.
  apply (dijkstra_cost_of_edges triangle triangle_reordered "A" "C").
  - vm_compute. reflexivity.
  - intros u v w. rewrite !edge_items_of.
    unfold items_of, triangle, triangle_reordered. simpl.
    destruct (String.eqb u "A") eqn:EA; destruct (String.eqb u "B") eqn:EB;
      simpl; try tauto.
    apply String.eqb_eq in EA, EB. congruence.
Defined.

(** X3.  [find_second_shortest_path(n, n)] finds nothing, for every node
    and every graph: the primary path [[n]] has no edge to remove, so the
    result is infinite cost with the empty path and nothing is copied. *)
Theorem second_path_same_node : forall s graph n,
  find_second_shortest_path s graph n n = ((Infinity, []), s).
Proof.
  intros s graph n. unfold find_second_shortest_path.
  rewrite dijkstra_self. reflexivity.
Qed.

(** X4.  In the results of both functions cost and path agree: the cost
    is infinite exactly when the path is empty. *)
Theorem cost_and_path_agree :
  (forall g a b,
     fst (dijkstra g a b) = Infinity <-> snd (dijkstra g a b) = []) /\
  (forall s graph a b,
     gref_ok s graph = true ->
     (fst (fst (find_second_shortest_path s graph a b)) = Infinity <->
      snd (fst (find_second_shortest_path s graph a b)) = [])).
Proof.
  split.
  - intros g a b. destruct (dijkstra g a b) as [c p] eqn:D.
    destruct (dijkstra_shape _ _ _ _ _ D) as [[-> ->] | [z [-> Hp]]]; simpl;
      split; congruence.
  - intros s graph a b Ok.
    destruct (find_second_shortest_path s graph a b) as [[c p] s'] eqn:F.
    destruct (find_second_spec _ _ _ _ _ _ Ok F) as [_ E]. symmetry in E.
    destruct (second_shortest_shape _ _ _ _ _ E) as [[-> ->] | [z [-> Hp]]];
      simpl; split; congruence.
Qed.

Lemma cost_and_path_agree_witness :
  (fst (dijkstra graph "A" "Z") = Infinity <->
   snd (dijkstra graph "A" "Z") = []) /\
  (fst (fst (find_second_shortest_path graph_store graph_ref "A" "G"))
     = Infinity <->
   snd (fst (find_second_shortest_path graph_store graph_ref "A" "G")) = []).
Proof.
  destruct cost_and_path_agree as [H1 H2]. split.
  - apply (H1 graph "A" "Z").
  - apply (H2 graph_store graph_ref "A" "G"). vm_compute. reflexivity.
Defined.

(** X5.  Whatever the weights, a non-empty path returned by
    [find_second_shortest_path] is a simple path of the module's graph
    from [start] to [end_] whose cost is the sum of its edge weights, and
    it passes, in neither direction, one of the edges of the primary
    path. *)
Theorem second_path_well_formed : forall s graph start end_ c p s',
  gref_ok s graph = true ->
  find_second_shortest_path s graph start end_ = ((c, p), s') ->
  p <> [] ->
  exists z i,
    c = Finite z /\
    hd_error p = Some start /\ last p "" = end_ /\ NoDup p /\
    (exists ws,
       length p = S (length ws) /\
       (forall k, k < length ws ->
          edge (snapshot s graph) (nth k p "") (nth (S k) p "")
            (nth k ws 0%Z)) /\
       z = sum_weights ws) /\
    S i < length (snd (dijkstra (snapshot s graph) start end_)) /\
    forall k, S k < length p ->
      ~ (nth k p "" = nth i (snd (dijkstra (snapshot s graph) start end_)) ""
         /\ nth (S k) p ""
            = nth (S i) (snd (dijkstra (snapshot s graph) start end_)) "") /\
      ~ (nth k p ""
           = nth (S i) (snd (dijkstra (snapshot s graph) start end_)) ""
         /\ nth (S k) p ""
            = nth i (snd (dijkstra (snapshot s graph) start end_)) "").
Proof.
  intros s graph start end_ c p s' Ok H Hp.
  destruct (find_second_spec _ _ _ _ _ _ Ok H) as [_ E]. symmetry in E.
  destruct (second_shortest_walk _ _ _ _ _ E Hp) as [z [i [-> [Hi [ND W]]]]].
  exists z, i. split; [reflexivity |].
  destruct (walk_shape _ _ _ _ _ W) as [Hh [Hl [ws [Len [Ed Sum]]]]].
  split; [exact Hh |]. split; [exact Hl |]. split; [exact ND |]. split.
  - exists ws. split; [exact Len |]. split; [|exact Sum].
    intros k Hk. specialize (Ed k Hk).
    apply edge_without_edge in Ed as [Ed _]. exact Ed.
  - split; [exact Hi |]. intros k Hk.
    assert (k < length ws) as Hk' by lia.
    specialize (Ed k Hk'). apply edge_without_edge in Ed as [_ Ed]. exact Ed.
Qed.

Lemma second_path_well_formed_witness :
  exists z i,
    Finite 6 = Finite z /\
    hd_error ["A"; "C"; "D"; "G"] = Some "A" /\
    last ["A"; "C"; "D"; "G"] "" = "G" /\ NoDup ["A"; "C"; "D"; "G"] /\
    (exists ws,
       length ["A"; "C"; "D"; "G"] = S (length ws) /\
       (forall k, k < length ws ->
          edge (snapshot graph_store graph_ref)
            (nth k ["A"; "C"; "D"; "G"] "") (nth (S k) ["A"; "C"; "D"; "G"] "")
            (nth k ws 0%Z)) /\
       z = sum_weights ws) /\
    S i < length (snd (dijkstra (snapshot graph_store graph_ref) "A" "G")) /\
    forall k, S k < length ["A"; "C"; "D"; "G"] ->
      ~ (nth k ["A"; "C"; "D"; "G"] ""
           = nth i (snd (dijkstra (snapshot graph_store graph_ref) "A" "G")) ""
         /\ nth (S k) ["A"; "C"; "D"; "G"] ""
            = nth (S i)
                (snd (dijkstra (snapshot graph_store graph_ref) "A" "G")) "") /\
      ~ (nth k ["A"; "C"; "D"; "G"] ""
           = nth (S i)
               (snd (dijkstra (snapshot graph_store graph_ref) "A" "G")) ""
         /\ nth (S k) ["A"; "C"; "D"; "G"] ""
            = nth i (snd (dijkstra (snapshot graph_store graph_ref) "A" "G")) "").
Proof.
  apply (second_path_well_formed graph_store graph_ref "A" "G" (Finite 6)
           ["A"; "C"; "D"; "G"]
           (snd (find_second_shortest_path graph_store graph_ref "A" "G"))).
  - vm_compute. reflexivity.
  - vm_compute. reflexivity.
  - discriminate.
Defined.

(** X6.  The test [path != shortest_path] never rejects a candidate: in
    every iteration over the primary path the search on the copy returns
    a path other than the primary one, so the iteration keeps the
    candidate exactly when its cost is less than [second_best_cost]. *)
Theorem second_guard_never_fires :
  forall s graph start end_ c0 p0 i best_cost best_path s' c' p',
  gref_ok s graph = true ->
  dijkstra (snapshot s graph) start end_ = (c0, p0) ->
  S i < length p0 ->
  second_body graph start end_ p0 (s, best_cost, best_path) i = (s', c', p') ->
  snd (dijkstra (without_edge (snapshot s graph)
                   (nth i p0 "") (nth (i + 1) p0 "")) start end_) <> p0 /\
  (c', p') =
    if cost_ltb
         (fst (dijkstra (without_edge (snapshot s graph)
                           (nth i p0 "") (nth (i + 1) p0 "")) start end_))
         best_cost
    then dijkstra (without_edge (snapshot s graph)
                     (nth i p0 "") (nth (i + 1) p0 "")) start end_
    else (best_cost, best_path).
Proof.
  intros s graph start end_ c0 p0 i bc bp s' c' p' Ok D Hi B.
  pose proof (candidate_differs _ _ _ _ _ i D Hi) as Ne.
  rewrite <- Nat.add_1_r in Ne. split; [exact Ne |].
  destruct (second_body_spec _ _ _ _ _ _ _ _ _ _ _ Ok B) as [_ E].
  rewrite E. unfold second_choice.
  destruct (dijkstra (without_edge (snapshot s graph)
                        (nth i p0 "") (nth (i + 1) p0 "")) start end_)
    as [cost path].
  simpl in *. destruct (path_eqb path p0) eqn:T.
  - apply path_eqb_eq in T. contradiction.
  - simpl. rewrite andb_true_r. reflexivity.
Qed.

Lemma second_guard_never_fires_witness :
  snd (dijkstra (without_edge (snapshot graph_store graph_ref)
                   (nth 0 ["A"; "B"; "C"; "D"; "G"] "")
                   (nth (0 + 1) ["A"; "B"; "C"; "D"; "G"] "")) "A" "G")
    <> ["A"; "B"; "C"; "D"; "G"] /\
  (Finite 6, ["A"; "C"; "D"; "G"]) =
    if cost_ltb
         (fst (dijkstra (without_edge (snapshot graph_store graph_ref)
                           (nth 0 ["A"; "B"; "C"; "D"; "G"] "")
                           (nth (0 + 1) ["A"; "B"; "C"; "D"; "G"] ""))
                 "A" "G"))
         Infinity
    then dijkstra (without_edge (snapshot graph_store graph_ref)
                     (nth 0 ["A"; "B"; "C"; "D"; "G"] "")
                     (nth (0 + 1) ["A"; "B"; "C"; "D"; "G"] "")) "A" "G"
    else (Infinity, []).
Proof.
  apply (second_guard_never_fires graph_store graph_ref "A" "G" (Finite 5)
           ["A"; "B"; "C"; "D"; "G"] 0 Infinity []
           (fst (fst (second_body graph_ref "A" "G" ["A"; "B"; "C"; "D"; "G"]
                        (graph_store, Infinity, []) 0)))).
  - vm_compute. reflexivity.
  - vm_compute. reflexivity.
  - simpl. lia.
  - vm_compute. reflexivity.
Defined.

(** X7.  With non-negative weights the result of
    [find_second_shortest_path] is the best of all single-edge detours:
    if [start] and [end_] are joined by a path of cost [d] in the graph
    without some edge of the primary path, the function returns a path,
    at a cost of at most [d]. *)
Theorem second_path_best_detour : forall s graph start end_ i q d,
  gref_ok s graph = true ->
  nonneg_weights (snapshot s graph) = true ->
  S i < length (snd (dijkstra (snapshot s graph) start end_)) ->
  walk (without_edge (snapshot s graph)
          (nth i (snd (dijkstra (snapshot s graph) start end_)) "")
          (nth (S i) (snd (dijkstra (snapshot s graph) start end_)) ""))
    start q end_ d ->
  exists z p,
    fst (find_second_shortest_path s graph start end_) = (Finite z, p) /\
    (z <= d)%Z.
Proof.
  intros s graph start end_ i q d Ok N Hi W.
  apply nonneg_weights_sound in N.
  destruct (find_second_shortest_path s graph start end_) as [[c p] s'] eqn:F.
  destruct (find_second_spec _ _ _ _ _ _ Ok F) as [_ E]. symmetry in E.
  unfold second_shortest in E.
  destruct (dijkstra (snapshot s graph) start end_) as [c0 p0] eqn:D0.
  simpl in Hi, W. destruct p0 as [|x p0]; [simpl in Hi; lia |].
  remember (x :: p0) as sp eqn:Esp.
  destruct (second_fold_best _ _ _ _ _ _ _ E) as [_ Best].
  assert (In i (seq 0 (length sp - 1))) as I by (apply in_seq; lia).
  pose proof (candidate_differs _ _ _ _ _ i D0 Hi) as Ne.
  rewrite <- Nat.add_1_r in Ne, W.
  specialize (Best i I Ne).
  pose proof (weights_nonneg_without_edge (snapshot s graph)
                (nth i sp "") (nth (i + 1) sp "") N) as N'.
  destruct (dijkstra_reaches _ _ _ _ _ N' W) as [zi [pi Di]].
  pose proof (dijkstra_least _ _ _ _ _ N' Di _ _ W) as Li.
  rewrite Di in Best. simpl in Best.
  apply cost_leb_Finite in Best as [z [-> Lz]].
  exists z, p. split; [reflexivity | lia].
Qed.

Lemma without_A_B_walk :
  walk (without_edge graph "A" "B") "A" ["A"; "C"; "D"; "G"] "G" 6%Z.
Proof.
  apply (edges_walk (without_edge graph "A" "B") [4; 1; 1]%Z
           ["A"; "C"; "D"; "G"]); [reflexivity | check_edges].
Qed.

Lemma second_path_best_detour_witness :
  exists z p,
    fst (find_second_shortest_path graph_store graph_ref "A" "G")
      = (Finite z, p) /\ (z <= 6)%Z.
Proof.
  apply (second_path_best_detour graph_store graph_ref "A" "G" 0
           ["A"; "C"; "D"; "G"] 6%Z).
  - vm_compute. reflexivity.
  - vm_compute. reflexivity.
  - vm_compute. lia.
  - exact without_A_B_walk.
Defined.

(** X8.  [find_second_shortest_path] allocates one copy of every
    adjacency dict per edge of the primary path and nothing else: the
    store grows by [(len(shortest_path) - 1) * len(graph)] objects, by
    none when there is no primary path. *)
Theorem second_path_allocations : forall s graph start end_,
  length (snd (find_second_shortest_path s graph start end_))
    = length s
      + (length (snd (dijkstra (snapshot s graph) start end_)) - 1)
        * length graph.
Proof.
  intros s graph start end_. unfold find_second_shortest_path.
  destruct (dijkstra (snapshot s graph) start end_) as [c0 sp]. simpl snd.
  destruct sp as [|x sp]; [simpl; lia |].
  pose proof (second_fold_length graph start end_ (x :: sp)
                (seq 0 (length (x :: sp) - 1)) (s, Infinity, [])) as L.
  destruct (fold_left _ _ _) as [[s1 c1] p1].
  simpl in L. simpl. rewrite L, length_seq. simpl. lia.
Qed.

(** X9.  The copy made for an iteration is deep: it has the keys of the
    module's graph in the same order and the same contents, its
    adjacency dicts are new objects, pairwise distinct, and writing to
    any of them leaves the contents of the module's graph as they were. *)
Theorem copy_graph_independent : forall s g s' gc,
  gref_ok s g = true -> copy_graph s g = (s', gc) ->
  snapshot s' gc = snapshot s g /\
  map fst gc = map fst g /\
  NoDup (map snd gc) /\
  (forall l, In l (map snd gc) -> length s <= l < length s') /\
  (forall l d, In l (map snd gc) -> snapshot (write s' l d) g = snapshot s g).
Proof.
  intros s g s' gc Ok C.
  destruct (copy_graph_spec _ _ _ _ C Ok) as [Len [P [Locs Snap]]].
  assert (forall l, In l (map snd gc) -> length s <= l < length s') as Rg.
  { intros l I. rewrite Locs in I. apply in_seq in I. lia. }
  split; [exact Snap |]. split.
  - pose proof (copy_graph_keys g s) as K. rewrite C in K. exact K.
  - split; [rewrite Locs; apply seq_NoDup |]. split; [exact Rg |].
    intros l d I. specialize (Rg l I).
    rewrite <- (snapshot_preserves _ _ _ Ok P).
    unfold snapshot. apply map_ext_in. intros [k l0] I0. simpl. f_equal.
    apply read_write_other. rewrite gref_ok_spec in Ok.
    specialize (Ok _ _ I0). lia.
Qed.

Lemma copy_graph_independent_witness :
  snapshot (fst (copy_graph bridge_store bridge_ref))
    (snd (copy_graph bridge_store bridge_ref))
    = snapshot bridge_store bridge_ref /\
  map fst (snd (copy_graph bridge_store bridge_ref)) = map fst bridge_ref /\
  NoDup (map snd (snd (copy_graph bridge_store bridge_ref))) /\
  (forall l, In l (map snd (snd (copy_graph bridge_store bridge_ref))) ->
     length bridge_store <= l
     < length (fst (copy_graph bridge_store bridge_ref))) /\
  (forall l d, In l (map snd (snd (copy_graph bridge_store bridge_ref))) ->
     snapshot (write (fst (copy_graph bridge_store bridge_ref)) l d) bridge_ref
       = snapshot bridge_store bridge_ref).
Proof.
  apply (copy_graph_independent bridge_store bridge_ref).
  - vm_compute. reflexivity.
  - vm_compute. reflexivity.
Defined.

(** * Properties of the [/get_paths] handler *)

Lemma dict_mem_keys : forall (V : Type) (d : list (string * V)) k,
  dict_mem k d = true -> In k (map fst d).
Proof.
  intros V d k. unfold dict_mem. induction d as [|[k0 v0] d IH]; simpl;
    [discriminate |].
  destruct (String.eqb k k0) eqn:E.
  - apply String.eqb_eq in E. auto.
  - auto.
Qed.

(** The body the handler returns, in terms of the two searches. *)
Lemma get_paths_Respond : forall upper s graph request body s',
  get_paths upper s graph request = (Respond body, s') ->
  dict_mem (upper (req_start request)) graph = true /\
  dict_mem (upper (req_end request)) graph = true /\
  find_second_shortest_path s graph (upper (req_start request))
    (upper (req_end request))
    = ((fst (fst (find_second_shortest_path s graph
                    (upper (req_start request)) (upper (req_end request)))),
        pr_path (second body)), s') /\
  pr_path (shortest body)
    = snd (dijkstra (snapshot s graph) (upper (req_start request))
             (upper (req_end request))) /\
  pr_cost (shortest body)
    = sentinel (fst (dijkstra (snapshot s graph) (upper (req_start request))
                       (upper (req_end request)))) /\
  pr_cost (second body)
    = sentinel (fst (fst (find_second_shortest_path s graph
                            (upper (req_start request))
                            (upper (req_end request))))).
Proof.
  intros upper s graph request body s' H. unfold get_paths in H.
  destruct (dict_mem (upper (req_start request)) graph); [|discriminate].
  destruct (dict_mem (upper (req_end request)) graph); [|discriminate].
  simpl in H.
  destruct (dijkstra (snapshot s graph) (upper (req_start request))
              (upper (req_end request))) as [c0 p0].
  destruct (find_second_shortest_path s graph (upper (req_start request))
              (upper (req_end request))) as [[c2 p2] s2].
  inversion H; subst. simpl. repeat split; reflexivity.
Qed.

Lemma second_shortest_nonneg : forall g start end_ z p,
  weights_nonneg g -> second_shortest g start end_ = (Finite z, p) ->
  (0 <= z)%Z.
Proof.
  intros g start end_ z p N H.
  destruct (second_shortest_shape _ _ _ _ _ H) as [[X _] | [z' [_ Hp]]];
    [discriminate |].
  destruct (second_shortest_walk _ _ _ _ _ H Hp) as [z2 [i [E [_ [_ W]]]]].
  inversion E; subst z2.
  eapply walk_nonneg; [|exact W]. apply weights_nonneg_without_edge. exact N.
Qed.

(** X10.  With non-negative weights the cost [-1] of a response is
    never the cost of a path: in both parts of the body the cost is [-1]
    exactly when the path is empty, and at least 0 otherwise. *)
Theorem get_paths_sentinel : forall upper s graph request body s',
  gref_ok s graph = true ->
  nonneg_weights (snapshot s graph) = true ->
  get_paths upper s graph request = (Respond body, s') ->
  (pr_cost (shortest body) = (-1)%Z <-> pr_path (shortest body) = []) /\
  (pr_path (shortest body) <> [] -> (0 <= pr_cost (shortest body))%Z) /\
  (pr_cost (second body) = (-1)%Z <-> pr_path (second body) = []) /\
  (pr_path (second body) <> [] -> (0 <= pr_cost (second body))%Z).
Proof.
  intros upper s graph request body s' Ok N H.
  apply nonneg_weights_sound in N.
  destruct (get_paths_Respond _ _ _ _ _ _ H) as [_ [_ [F [P1 [C1 C2]]]]].
  set (a := upper (req_start request)) in *.
  set (b := upper (req_end request)) in *.
  assert ((pr_cost (shortest body) = (-1)%Z <-> pr_path (shortest body) = [])
          /\ (pr_path (shortest body) <> [] ->
              (0 <= pr_cost (shortest body))%Z)) as [S1 S2].
  { rewrite P1, C1. destruct (dijkstra (snapshot s graph) a b) as [c p] eqn:D.
    simpl. destruct (dijkstra_shape _ _ _ _ _ D) as [[-> ->] | [z [-> Hp]]].
    - simpl. split; [tauto | congruence].
    - apply dijkstra_finite in D as [W _].
      pose proof (walk_nonneg _ _ _ _ _ N W). simpl.
      split; [split; [lia | congruence] | auto]. }
  split; [exact S1 |]. split; [exact S2 |].
  destruct (find_second_spec _ _ _ _ _ _ Ok F) as [_ E]. symmetry in E.
  rewrite C2.
  destruct (fst (fst (find_second_shortest_path s graph a b))) as [z|] eqn:Ec.
  - pose proof (second_shortest_nonneg _ _ _ _ _ N E).
    destruct (second_shortest_shape _ _ _ _ _ E) as [[X _] | [z' [_ Hp]]];
      [discriminate |].
    simpl. split; [split; [lia | congruence] | auto].
  - destruct (second_shortest_shape _ _ _ _ _ E) as [[_ ->] | [z' [X _]]];
      [|discriminate].
    simpl. split; [tauto | congruence].
Qed.

Lemma get_paths_sentinel_witness :
  (pr_cost (shortest
      {| shortest := {| pr_cost := 5; pr_path := ["A"; "B"; "C"; "D"; "G"] |};
         second := {| pr_cost := 6; pr_path := ["A"; "C"; "D"; "G"] |} |})
     = (-1)%Z <->
   pr_path (shortest
      {| shortest := {| pr_cost := 5; pr_path := ["A"; "B"; "C"; "D"; "G"] |};
         second := {| pr_cost := 6; pr_path := ["A"; "C"; "D"; "G"] |} |})
     = []) /\
  (pr_path (shortest
      {| shortest := {| pr_cost := 5; pr_path := ["A"; "B"; "C"; "D"; "G"] |};
         second := {| pr_cost := 6; pr_path := ["A"; "C"; "D"; "G"] |} |})
     <> [] ->
   (0 <= pr_cost (shortest
      {| shortest := {| pr_cost := 5; pr_path := ["A"; "B"; "C"; "D"; "G"] |};
         second := {| pr_cost := 6; pr_path := ["A"; "C"; "D"; "G"] |} |}))%Z)
  /\
  (pr_cost (second
      {| shortest := {| pr_cost := 5; pr_path := ["A"; "B"; "C"; "D"; "G"] |};
         second := {| pr_cost := 6; pr_path := ["A"; "C"; "D"; "G"] |} |})
     = (-1)%Z <->
   pr_path (second
      {| shortest := {| pr_cost := 5; pr_path := ["A"; "B"; "C"; "D"; "G"] |};
         second := {| pr_cost := 6; pr_path := ["A"; "C"; "D"; "G"] |} |})
     = []) /\
  (pr_path (second
      {| shortest := {| pr_cost := 5; pr_path := ["A"; "B"; "C"; "D"; "G"] |};
         second := {| pr_cost := 6; pr_path := ["A"; "C"; "D"; "G"] |} |})
     <> [] ->
   (0 <= pr_cost (second
      {| shortest := {| pr_cost := 5; pr_path := ["A"; "B"; "C"; "D"; "G"] |};
         second := {| pr_cost := 6; pr_path := ["A"; "C"; "D"; "G"] |} |}))%Z).
Proof.
  apply (get_paths_sentinel ascii_upper graph_store graph_ref
           {| req_start := "a"; req_end := "g" |}
           {| shortest := {| pr_cost := 5;
                             pr_path := ["A"; "B"; "C"; "D"; "G"] |};
              second := {| pr_cost := 6; pr_path := ["A"; "C"; "D"; "G"] |} |}
           (snd (get_paths ascii_upper graph_store graph_ref
                   {| req_start := "a"; req_end := "g" |}))).
  - vm_compute. reflexivity.
  - vm_compute. reflexivity.
  - vm_compute. reflexivity.
Defined.

(** X11.  With non-negative weights, when the body carries a second
    path it also carries a shortest path, the second path is another
    path and costs no less, and both lead from the normalised start node
    to the normalised end node. *)
Theorem get_paths_second_no_better : forall upper s graph request body s',
  gref_ok s graph = true ->
  nonneg_weights (snapshot s graph) = true ->
  get_paths upper s graph request = (Respond body, s') ->
  pr_path (second body) <> [] ->
  pr_path (shortest body) <> [] /\
  (pr_cost (shortest body) <= pr_cost (second body))%Z /\
  pr_path (second body) <> pr_path (shortest body) /\
  hd_error (pr_path (shortest body)) = Some (upper (req_start request)) /\
  hd_error (pr_path (second body)) = Some (upper (req_start request)) /\
  last (pr_path (shortest body)) "" = upper (req_end request) /\
  last (pr_path (second body)) "" = upper (req_end request).
Proof.
  intros upper s graph request body s' Ok N H Hp.
  apply nonneg_weights_sound in N.
  destruct (get_paths_Respond _ _ _ _ _ _ H) as [_ [_ [F [P1 [C1 C2]]]]].
  set (a := upper (req_start request)) in *.
  set (b := upper (req_end request)) in *.
  destruct (find_second_spec _ _ _ _ _ _ Ok F) as [_ E]. symmetry in E.
  destruct (second_shortest_sound _ _ _ _ _ N E Hp)
    as [z0 [p0 [z [i [D [Hc [Hne [Hle [_ [_ [W _]]]]]]]]]]].
  rewrite C1, C2, P1, Hc, D. simpl.
  destruct (dijkstra_finite _ _ _ _ _ D) as [W0 _].
  destruct (walk_shape _ _ _ _ _ W0) as [Hh0 [Hl0 _]].
  destruct (walk_shape _ _ _ _ _ W) as [Hh [Hl _]].
  repeat split; auto. exact (walk_nonempty _ _ _ _ _ W0).
Qed.

Lemma get_paths_second_no_better_witness :
  ["A"; "B"; "C"; "D"; "G"] <> [] /\
  (5 <= 6)%Z /\
  ["A"; "C"; "D"; "G"] <> ["A"; "B"; "C"; "D"; "G"] /\
  hd_error ["A"; "B"; "C"; "D"; "G"] = Some (ascii_upper "a") /\
  hd_error ["A"; "C"; "D"; "G"] = Some (ascii_upper "a") /\
  last ["A"; "B"; "C"; "D"; "G"] "" = ascii_upper "g" /\
  last ["A"; "C"; "D"; "G"] "" = ascii_upper "g".
Proof.
  apply (get_paths_second_no_better ascii_upper graph_store graph_ref
           {| req_start := "a"; req_end := "g" |}
           {| shortest := {| pr_cost := 5;
                             pr_path := ["A"; "B"; "C"; "D"; "G"] |};
              second := {| pr_cost := 6; pr_path := ["A"; "C"; "D"; "G"] |} |}
           (snd (get_paths ascii_upper graph_store graph_ref
                   {| req_start := "a"; req_end := "g" |}))).
  - vm_compute. reflexivity.
  - vm_compute. reflexivity.
  - vm_compute. reflexivity.
  - discriminate.
Defined.

Lemma get_paths_preserves : forall upper s graph request,
  gref_ok s graph = true ->
  preserves s (snd (get_paths upper s graph request)).
Proof.
  intros upper s graph request Ok. unfold get_paths.
  destruct (dict_mem (upper (req_start request)) graph);
    [|apply preserves_refl].
  destruct (dict_mem (upper (req_end request)) graph);
    [|apply preserves_refl].
  simpl.
  destruct (dijkstra (snapshot s graph) (upper (req_start request))
              (upper (req_end request))) as [c0 p0].
  destruct (find_second_shortest_path s graph (upper (req_start request))
              (upper (req_end request))) as [[c2 p2] s2] eqn:F.
  simpl. exact (proj1 (find_second_spec _ _ _ _ _ _ Ok F)).
Qed.

(** The reply depends on the store through the contents of the graph
    only. *)
Lemma get_paths_snapshot : forall upper s1 s2 graph request,
  gref_ok s1 graph = true -> gref_ok s2 graph = true ->
  snapshot s2 graph = snapshot s1 graph ->
  fst (get_paths upper s2 graph request)
    = fst (get_paths upper s1 graph request).
Proof.
  intros upper s1 s2 graph request Ok1 Ok2 Snap. unfold get_paths.
  destruct (dict_mem (upper (req_start request)) graph); [|reflexivity].
  destruct (dict_mem (upper (req_end request)) graph); [|reflexivity].
  simpl. rewrite Snap.
  destruct (dijkstra (snapshot s1 graph) (upper (req_start request))
              (upper (req_end request))) as [c0 p0].
  destruct (find_second_shortest_path s1 graph (upper (req_start request))
              (upper (req_end request))) as [[c1 p1] t1] eqn:F1.
  destruct (find_second_shortest_path s2 graph (upper (req_start request))
              (upper (req_end request))) as [[c2 p2] t2] eqn:F2.
  destruct (find_second_spec _ _ _ _ _ _ Ok1 F1) as [_ E1].
  destruct (find_second_spec _ _ _ _ _ _ Ok2 F2) as [_ E2].
  rewrite Snap, <- E1 in E2. inversion E2; subst. reflexivity.
Qed.

(** X12.  A request changes no dict object that existed before it, so
    the contents of the module's graph are the same after it, and every
    later request is answered as it would have been answered before. *)
Theorem get_paths_leaves_graph : forall upper s graph request r s',
  gref_ok s graph = true ->
  get_paths upper s graph request = (r, s') ->
  (forall l, l < length s -> read s' l = read s l) /\
  snapshot s' graph = snapshot s graph /\
  forall upper' request',
    fst (get_paths upper' s' graph request')
      = fst (get_paths upper' s graph request').
Proof.
  intros upper s graph request r s' Ok H.
  pose proof (get_paths_preserves upper s graph request Ok) as P.
  rewrite H in P. simpl in P.
  pose proof (snapshot_preserves _ _ _ Ok P) as Snap.
  pose proof (gref_ok_preserves _ _ _ Ok P) as Ok'.
  split; [exact (proj2 P) |]. split; [exact Snap |].
  intros upper' request'. apply get_paths_snapshot; assumption.
Qed.

Lemma get_paths_leaves_graph_witness :
  (forall l, l < length graph_store ->
     read (snd (get_paths ascii_upper graph_store graph_ref
                  {| req_start := "a"; req_end := "g" |})) l
       = read graph_store l) /\
  snapshot (snd (get_paths ascii_upper graph_store graph_ref
                   {| req_start := "a"; req_end := "g" |})) graph_ref
    = snapshot graph_store graph_ref /\
  forall upper' request',
    fst (get_paths upper'
           (snd (get_paths ascii_upper graph_store graph_ref
                   {| req_start := "a"; req_end := "g" |}))
           graph_ref request')
      = fst (get_paths upper' graph_store graph_ref request').
Proof.
  apply (get_paths_leaves_graph ascii_upper graph_store graph_ref
           {| req_start := "a"; req_end := "g" |}
           (fst (get_paths ascii_upper graph_store graph_ref
                   {| req_start := "a"; req_end := "g" |}))).
  - vm_compute. reflexivity.
  - vm_compute. reflexivity.
Defined.

Lemma keys_dict_mem : forall (V : Type) (d : list (string * V)) k,
  In k (map fst d) -> dict_mem k d = true.
Proof.
  intros V d k. unfold dict_mem. induction d as [|[k0 v0] d IH]; simpl;
    [intros [] |].
  destruct (String.eqb k k0) eqn:E; [reflexivity |].
  intros [H | H]; [|auto].
  subst k0. rewrite String.eqb_refl in E. discriminate.
Qed.

Lemma module_pairs_ok :
  forallb (fun a => forallb (module_pair_ok a) module_nodes) module_nodes
    = true.
Proof. vm_compute. reflexivity. Qed.

(** X13.  On the module's graph the handler raises the 400 error for
    the start node when its normalised identifier is none of [A] to [J],
    else the one for the end node when that is none of them, and
    otherwise returns a body: its shortest path is never empty and costs
    at least 0; from a node to itself there is no second path (cost
    [-1], empty path), and between two different nodes there always is
    one, which costs no less than the shortest. *)
Theorem get_paths_on_module_graph : forall upper request,
  (~ In (upper (req_start request)) module_nodes ->
   get_paths upper graph_store graph_ref request
     = (HTTPException 400
          (String.append "Start node '"
             (String.append (upper (req_start request))
                "' not found in graph")), graph_store)) /\
  (In (upper (req_start request)) module_nodes ->
   ~ In (upper (req_end request)) module_nodes ->
   get_paths upper graph_store graph_ref request
     = (HTTPException 400
          (String.append "End node '"
             (String.append (upper (req_end request))
                "' not found in graph")), graph_store)) /\
  (In (upper (req_start request)) module_nodes ->
   In (upper (req_end request)) module_nodes ->
   exists body s',
     get_paths upper graph_store graph_ref request = (Respond body, s') /\
     (0 <= pr_cost (shortest body))%Z /\
     pr_path (shortest body) <> [] /\
     (upper (req_start request) = upper (req_end request) ->
      second body = {| pr_cost := (-1)%Z; pr_path := [] |}) /\
     (upper (req_start request) <> upper (req_end request) ->
      pr_path (second body) <> [] /\
      (pr_cost (shortest body) <= pr_cost (second body))%Z)).
Proof.
  intros upper request.
  set (a := upper (req_start request)). set (b := upper (req_end request)).
  assert (forall k, dict_mem k graph_ref = true <-> In k module_nodes) as K.
  { intros k. change module_nodes with (map fst graph_ref).
    split; [apply dict_mem_keys | apply keys_dict_mem]. }
  split; [|split].
  - intros Ha. unfold get_paths. fold a.
    destruct (dict_mem a graph_ref) eqn:M; [|reflexivity].
    apply K in M. contradiction.
  - intros Ha Hb. unfold get_paths. fold a b.
    apply K in Ha. rewrite Ha. simpl.
    destruct (dict_mem b graph_ref) eqn:M; [|reflexivity].
    apply K in M. contradiction.
  - intros Ha Hb.
    pose proof module_pairs_ok as P. rewrite forallb_forall in P.
    specialize (P a Ha). rewrite forallb_forall in P. specialize (P b Hb).
    unfold module_pair_ok, graph in P.
    unfold get_paths. fold a b.
    apply K in Ha, Hb. rewrite Ha, Hb. cbn [negb].
    destruct (dijkstra (snapshot graph_store graph_ref) a b) as [c1 p1].
    destruct (find_second_shortest_path graph_store graph_ref a b)
      as [[c2 p2] s2].
    simpl in P. destruct c1 as [z|]; [|discriminate].
    apply andb_true_iff in P as [P P3]. apply andb_true_iff in P as [P1 P2].
    apply Z.leb_le in P1. apply negb_true_iff in P2.
    exists {| shortest := {| pr_cost := sentinel (Finite z); pr_path := p1 |};
              second := {| pr_cost := sentinel c2; pr_path := p2 |} |}, s2.
    simpl. split; [reflexivity |]. split; [exact P1 |]. split.
    + intros ->. simpl in P2. discriminate.
    + split.
      * intros E. apply String.eqb_eq in E. rewrite E in P3.
        destruct c2 as [z2|]; [discriminate |].
        apply path_eqb_eq in P3. subst p2. reflexivity.
      * intros E. apply String.eqb_neq in E. rewrite E in P3.
        destruct c2 as [z2|]; [|discriminate].
        apply andb_true_iff in P3 as [P4 P5].
        apply Z.leb_le in P4. apply negb_true_iff in P5. simpl.
        split; [|exact P4]. intros ->. simpl in P5. discriminate.
Qed.

Lemma get_paths_on_module_graph_witness :
  get_paths ascii_upper graph_store graph_ref
    {| req_start := "z"; req_end := "q" |}
    = (HTTPException 400 "Start node 'Z' not found in graph", graph_store) /\
  get_paths ascii_upper graph_store graph_ref
    {| req_start := "a"; req_end := "q" |}
    = (HTTPException 400 "End node 'Q' not found in graph", graph_store) /\
  exists body s',
    get_paths ascii_upper graph_store graph_ref
      {| req_start := "a"; req_end := "g" |} = (Respond body, s') /\
    (0 <= pr_cost (shortest body))%Z /\
    pr_path (shortest body) <> [] /\
    (ascii_upper "a" = ascii_upper "g" ->
     second body = {| pr_cost := (-1)%Z; pr_path := [] |}) /\
    (ascii_upper "a" <> ascii_upper "g" ->
     pr_path (second body) <> [] /\
     (pr_cost (shortest body) <= pr_cost (second body))%Z).
Proof.
  split; [|split].
  - apply (get_paths_on_module_graph ascii_upper
             {| req_start := "z"; req_end := "q" |}).
    vm_compute. intuition discriminate.
  - apply (get_paths_on_module_graph ascii_upper
             {| req_start := "a"; req_end := "q" |}).
    + vm_compute. auto.
    + vm_compute. intuition discriminate.
  - apply (get_paths_on_module_graph ascii_upper
             {| req_start := "a"; req_end := "g" |}).
    + vm_compute. auto.
    + vm_compute. auto 10.
Defined.

(** * Searches on related graphs *)

(** Two walks that meet can be joined. *)
Lemma walk_app : forall g a p b c1 q c c2,
  walk g a p b c1 -> walk g b q c c2 ->
  walk g a (p ++ tl q) c (c1 + c2)%Z.
Proof.
  intros g a p b c1 q c c2 W1 W2.
  induction W2 as [|q u c2 v w W2 IH E].
  - simpl. rewrite app_nil_r. replace (c1 + 0)%Z with c1 by lia. exact W1.
  - assert (tl (q ++ [v]) = tl q ++ [v]) as ->.
    { destruct q as [|x q]; [|reflexivity].
      destruct (walk_nonempty _ _ _ _ _ W2 eq_refl). }
    rewrite app_assoc. replace (c1 + (c2 + w))%Z with ((c1 + c2) + w)%Z by lia.
    apply walk_step with (u := u); assumption.
Qed.

(** X14.  With non-negative weights, deleting an edge, as the second
    search does for its copies, never makes [dijkstra] return a smaller
    cost: the cost on the graph is at most the cost on the graph without
    the edges between [u] and [v]. *)
Theorem dijkstra_cost_without_edge : forall g u v a b,
  nonneg_weights g = true ->
  cost_leb (fst (dijkstra g a b)) (fst (dijkstra (without_edge g u v) a b))
    = true.
Proof.
  intros g u v a b N. apply nonneg_weights_sound in N.
  apply dijkstra_cost_transfer; [exact N |].
  intros q d W. exists q. eapply walk_incl; [|exact W].
  intros x y w E. apply edge_without_edge in E as [E _]. exact E.
Qed.

Lemma dijkstra_cost_without_edge_witness :
  cost_leb (fst (dijkstra graph "A" "G"))
    (fst (dijkstra (without_edge graph "D" "G") "A" "G")) = true.
Proof.
  apply (dijkstra_cost_without_edge graph "D" "G" "A" "G").
  vm_compute. reflexivity.
Defined.

(** X15.  With non-negative weights the costs [dijkstra] returns obey
    the triangle inequality: if it finds a path from [a] to [b] at cost
    [x] and one from [b] to [c] at cost [y], it finds a path from [a] to
    [c] at a cost of at most [x + y]. *)
Theorem dijkstra_triangle : forall g a b c x p y q,
  nonneg_weights g = true ->
  dijkstra g a b = (Finite x, p) ->
  dijkstra g b c = (Finite y, q) ->
  exists z r, dijkstra g a c = (Finite z, r) /\ (z <= x + y)%Z.
Proof.
  intros g a b c x p y q N D1 D2. apply nonneg_weights_sound in N.
  destruct (dijkstra_finite _ _ _ _ _ D1) as [W1 _].
  destruct (dijkstra_finite _ _ _ _ _ D2) as [W2 _].
  pose proof (walk_app _ _ _ _ _ _ _ _ W1 W2) as W.
  destruct (dijkstra_reaches _ _ _ _ _ N W) as [z [r D]].
  exists z, r. split; [exact D |].
  exact (dijkstra_least _ _ _ _ _ N D _ _ W).
Qed.

Lemma dijkstra_triangle_witness :
  exists z r, dijkstra graph "A" "J" = (Finite z, r) /\ (z <= 5 + 5)%Z.
Proof.
  apply (dijkstra_triangle graph "A" "G" "J" 5 ["A"; "B"; "C"; "D"; "G"]
           5 ["G"; "J"]).
  - vm_compute. reflexivity.
  - vm_compute. reflexivity.
  - vm_compute. reflexivity.
Defined.
